(** * BlockVote: the blockchain engine ([blockchain] package)

    A shallow embedding of the block store, the chain iterator, block
    admission ([Put]), fork reconciliation ([CheckoutFork]) and the query
    layer ([TxnStatus], [FindUnspentTransactions], [FindSpendableOutputs]),
    together with the properties of the specification that concern them. *)

From Stdlib Require Import ZArith Lia.
From Stdlib Require Import Strings.Byte Strings.Ascii Strings.String.
From stdpp Require Import gmap strings list fin_maps.

Local Open Scope Z_scope.

(** ** Byte strings

    Go's [[]byte] is a list of bytes; [len(x) == 0] holds for both [nil] and
    the empty slice, and [bytes.Compare(x, y) == 0] is equality of contents,
    so both are the empty list here. *)

Abbreviation bytes := (list Byte.byte).

#[global] Instance byte_eq_dec : EqDecision Byte.byte := Byte.byte_eq_dec.

#[global] Program Instance byte_countable : Countable Byte.byte :=
  inj_countable Byte.to_N Byte.of_N _.
Next Obligation. intros b. apply Byte.of_to_N. Qed.

(** [[]byte("...")]: the bytes of a string literal. *)
Definition bytes_of (s : string) : bytes := String.list_byte_of_string s.

(** Go's [int] is 64 bits wide on the platforms the program runs on;
    addition wraps around. *)
Definition int_wrap (z : Z) : Z := (z + 2 ^ 63) `mod` 2 ^ 64 - 2 ^ 63.
Definition int_add (a b : Z) : Z := int_wrap (a + b).

(** [hex.EncodeToString]: two lower-case digits per byte, high nibble first. *)
Definition hextable : string := "0123456789abcdef".

Definition hex_digit (n : N) : ascii :=
  default "0"%char (String.get (N.to_nat n) hextable).

Fixpoint EncodeToString (src : bytes) : string :=
  match src with
  | [] => EmptyString
  | v :: src =>
      String (hex_digit (N.shiftr (Byte.to_N v) 4))
        (String (hex_digit (N.land (Byte.to_N v) 15)) (EncodeToString src))
  end.

(** ** Data model *)

Record Ballot := {
  VoterName : string;
  VoterStudentID : string;
  VoterCandidate : string;
}.

(** Modelled from the spec: the declarations of [Transaction], [TxInput] and
    [TxOutput]. Section 3 gives an input as [{ref_txn_id, ref_out_index,
    signature_fragment, public_key}] and an output as [{value:int,
    pub_key_hash:bytes}] with the predicate [IsLockedWithKey(pkh)]; the field
    names [ID], [Value], [Inputs], [Outputs], [Data], [Signature] and
    [PublicKey] are the ones the engine and the client library use. [Data]
    is a pointer to a ballot and may be [nil]. *)
Record TxInput := {
  In_ID : bytes;
  In_Out : Z;
  In_Signature : bytes;
  In_PubKey : bytes;
}.

Record TxOutput := {
  Value : Z;
  PubKeyHash : bytes;
}.

Record Transaction := {
  Data : option Ballot;
  ID : bytes;
  Inputs : list TxInput;
  Outputs : list TxOutput;
  Signature : bytes;
  PublicKey : bytes;
}.

(** Modelled from the spec: the method [IsLockedWithKey] of an output, which
    holds when the output's public-key hash is [pubKeyHash]. *)
Definition IsLockedWithKey (out : TxOutput) (pubKeyHash : bytes) : bool :=
  bool_decide (PubKeyHash out = pubKeyHash).

(** [BlockNum] is a [uint8] and [Nonce] a [uint32]: numbers in [0, 255] and
    [0, 2^32 - 1]. The engine compares [BlockNum] with 0 and computes with
    neither. *)
Record Block := {
  PrevHash : bytes;
  BlockNum : Z;
  Nonce : Z;
  Txns : list Transaction;
  MinerID : string;
  Hash : bytes;
}.

#[global] Instance Ballot_eq_dec : EqDecision Ballot.
Proof. solve_decision. Defined.
#[global] Instance TxInput_eq_dec : EqDecision TxInput.
Proof. solve_decision. Defined.
#[global] Instance TxOutput_eq_dec : EqDecision TxOutput.
Proof. solve_decision. Defined.
#[global] Instance Transaction_eq_dec : EqDecision Transaction.
Proof. solve_decision. Defined.
#[global] Instance Block_eq_dec : EqDecision Block.
Proof. solve_decision. Defined.

(** ** The key-value store

    Modelled from the spec: [util.Database], an ordered key-value store
    with [Get/Put/PutMulti/KeyExist/GetAllWithPrefix] (section 4.4). Keys are
    byte strings. A value is either raw bytes (the tip hash under
    ["LastHash"]) or the gob encoding of a block; the encoding itself is
    abstracted by the constructor [Gob], which makes [DecodeToBlock] after
    [Encode] the identity and decoding anything else a decode error. Writes
    are taken to succeed: a failing write stops the process in [Put]. *)

Inductive DBValue :=
  | Raw (bs : bytes)
  | Gob (b : Block).

Definition Encode (b : Block) : DBValue := Gob b.

Definition DecodeToBlock (data : DBValue) : option Block :=
  match data with
  | Gob b => Some b
  | Raw _ => None
  end.

Definition LastHashKey : bytes := bytes_of "LastHash".
Definition BlockKeyPrefix : string := "block-".

(** [bytes.Join([][]byte{[]byte(BlockKeyPrefix), blockHash}, []byte{})] *)
Definition DBKeyForBlock (blockHash : bytes) : bytes :=
  bytes_of BlockKeyPrefix ++ blockHash.

Record BlockChain := {
  LastHash : bytes;
  DB : gmap bytes DBValue;
}.

Record ChainIterator := {
  Iter_LastHash : bytes;
  CurrentHash : bytes;
  Index : Z;
}.

(** ** Computations over the chain

    A method of [*BlockChain] reads and may write the receiver and the
    database behind it, and may stop the process ([log.Fatal]). It is a
    function from the state before to [None] (fatal exit) or to a result and
    the state after. *)

Definition M (A : Type) : Type := BlockChain → option (A * BlockChain).

#[global] Instance M_ret : MRet M := λ A a bc, Some (a, bc).
#[global] Instance M_bind : MBind M := λ A B k m bc,
  match m bc with
  | Some (a, bc') => k a bc'
  | None => None
  end.

Definition ret {A} (a : A) : M A := mret a.
Definition fatal {A} : M A := λ _, None.

Definition getLastHash : M bytes := λ bc, Some (LastHash bc, bc).
Definition setLastHash (h : bytes) : M unit :=
  λ bc, Some (tt, {| LastHash := h; DB := DB bc |}).

Definition KeyExist (key : bytes) : M bool :=
  λ bc, Some (bool_decide (is_Some (DB bc !! key)), bc).
(** [DB.Get]: the value, or an error when the key is absent. *)
Definition db_Get (key : bytes) : M (option DBValue) :=
  λ bc, Some (DB bc !! key, bc).
Definition db_Put (key : bytes) (value : DBValue) : M unit :=
  λ bc, Some (tt, {| LastHash := LastHash bc; DB := <[key := value]> (DB bc) |}).
(** [DB.PutMulti]: all the pairs are written, in order, in one step. *)
Definition db_PutMulti (kvs : list (bytes * DBValue)) : M unit :=
  λ bc, Some (tt, {| LastHash := LastHash bc;
                     DB := foldl (λ m kv, <[kv.1 := kv.2]> m) (DB bc) kvs |}).

(** Proof of work is declared elsewhere in the package; the engine uses it
    through two operations. [Run] stands for [NewProof(b).Run()], which
    yields the nonce and the hash it stores in the block, and [Validate] for
    [NewProof(b).Validate()]. *)
Class ProofOfWork := {
  Run : Block → Z * bytes;
  Validate : Block → bool;
}.

(** The bytes of the gob encoding of a block. The engine reads them as
    bytes only when the value under ["LastHash"] is an encoded block. *)
Class GobCodec := {
  gob_bytes : Block → bytes;
}.

(** The signature check of a transaction is declared elsewhere in the
    package: [tx_Verify tx prevTXs] stands for [tx.Verify(prevTXs)]. *)
Class TransactionCrypto := {
  tx_Verify : Transaction → gmap string Transaction → bool;
}.

Section Chain.

Context `{!ProofOfWork}.

Definition Genesis : Block :=
  let b := {| PrevHash := []; BlockNum := 0; Nonce := 0; Txns := [];
              MinerID := "Coord"; Hash := [] |} in
  let '(nonce, hash) := Run b in
  {| PrevHash := PrevHash b; BlockNum := BlockNum b; Nonce := nonce;
     Txns := Txns b; MinerID := MinerID b; Hash := hash |}.

Definition NewBlockChain (db : gmap bytes DBValue) : BlockChain :=
  {| LastHash := []; DB := db |}.

(** [Init]: [Some msg] is the returned error, [None] is [nil]. *)
Definition Init : M (option string) :=
  initialized ← KeyExist LastHashKey;
  if (initialized : bool) then ret (Some "blockchain has already been initialized"%string)
  else
    let genesis := Genesis in
    _ ← db_PutMulti [(DBKeyForBlock (Hash genesis), Encode genesis);
                     (LastHashKey, Raw (Hash genesis))];
    _ ← setLastHash (Hash genesis);
    ret None.

Definition Exist (hash : bytes) : M bool :=
  KeyExist (DBKeyForBlock hash).

Definition Get (hash : bytes) : M Block :=
  data ← db_Get (DBKeyForBlock hash);
  match data with
  | None => fatal
  | Some data =>
      match DecodeToBlock data with
      | None => fatal
      | Some block => ret block
      end
  end.

Definition Put (block : Block) (owned : bool) : M bool :=
  if bool_decide (length (PrevHash block) = 0%nat) || bool_decide (BlockNum block = 0)
     || bool_decide (length (Hash block) = 0%nat)
     || bool_decide (String.length (MinerID block) = 0%nat)
  then ret false
  else
    parent ← Exist (PrevHash block);
    if negb parent then ret false
    else
      dup ← Exist (Hash block);
      if (dup : bool) then ret false
      else
        if negb owned && negb (Validate block) then ret false
        else
          _ ← db_Put (DBKeyForBlock (Hash block)) (Encode block);
          lastHash ← getLastHash;
          if bool_decide (PrevHash block = lastHash)
          then _ ← setLastHash (Hash block); ret true
          else ret true.

(** *** The chain iterator *)

Definition NewIterator (hash : bytes) : ChainIterator :=
  {| Iter_LastHash := hash; CurrentHash := hash; Index := -1 |}.

(** [Next] returns the block under the cursor and whether it is the genesis
    block, and moves the cursor to the parent. The iterator is a Go object
    of its own: its new value is returned along with the results. *)
Definition Next (iter : ChainIterator) : M (Block * bool * ChainIterator) :=
  block ← Get (CurrentHash iter);
  ret (block, bool_decide (BlockNum block = 0),
       {| Iter_LastHash := Iter_LastHash iter;
          CurrentHash := PrevHash block;
          Index := int_add (Index iter) 1 |}).

Definition Reset (iter : ChainIterator) : ChainIterator :=
  {| Iter_LastHash := Iter_LastHash iter;
     CurrentHash := Iter_LastHash iter;
     Index := -1 |}.

(** Loops over the chain have no bound in the source: a store whose parent
    links form a cycle makes them run forever. Here they take [fuel], the
    number of calls of [Next] they may make; running out of it yields [None],
    like a fatal exit. *)

(** *** Fork reconciliation *)

(** [for block, end := iter.Next(); !end; block, end = iter.Next()]
    prepending [block.Hash] to the hashes collected so far. *)
Fixpoint collect_hashes (fuel : nat) (iter : ChainIterator) (blockHashes : list bytes)
    : M (list bytes) :=
  match fuel with
  | O => fatal
  | S fuel =>
      '(block, end_, iter) ← Next iter;
      if (end_ : bool) then ret blockHashes
      else collect_hashes fuel iter (Hash block :: blockHashes)
  end.

(** [for ; i < min(len(new), len(old)); i++ { if new[i] != old[i] { break } }]:
    [n] is the number of indices still to visit. The source takes the
    minimum through [math.Min] on [float64], which is exact on lengths. *)
Fixpoint first_different (n i : nat) (blockHashesNew blockHashesOld : list bytes) : nat :=
  match n with
  | O => i
  | S n =>
      if bool_decide (blockHashesNew !! i = blockHashesOld !! i)
      then first_different n (S i) blockHashesNew blockHashesOld
      else i
  end.

(** [for _, hash := range hashes { block := bc.Get(hash); for _, txn := range
    block.Txns { txns = append(txns, txn) } }] *)
Fixpoint collect_txns (hashes : list bytes) (txns : list Transaction)
    : M (list Transaction) :=
  match hashes with
  | [] => ret txns
  | hash :: hashes =>
      block ← Get hash;
      collect_txns hashes (foldl (λ acc txn, acc ++ [txn]) txns (Txns block))
  end.

Definition CheckoutFork (fuel : nat) (lastHashNew : bytes)
    : M (list Transaction * list Transaction) :=
  lastHash ← getLastHash;
  if bool_decide (lastHashNew = lastHash) then ret ([], [])
  else
    let iterNew := NewIterator lastHashNew in
    let iterOld := NewIterator lastHash in
    blockHashesNew ← collect_hashes fuel iterNew [];
    blockHashesOld ← collect_hashes fuel iterOld [];
    let i := first_different (length blockHashesNew `min` length blockHashesOld)%nat 0
               blockHashesNew blockHashesOld in
    newTxns ← collect_txns (drop i blockHashesNew) [];
    oldTxns ← collect_txns (drop i blockHashesOld) [];
    ret (newTxns, oldTxns).

(** *** Queries *)

(** The inner loop of [TxnStatus]: the first transaction with the id sets
    [res] to the iterator's index and leaves the loop. *)
Fixpoint scan_txns (txns : list Transaction) (txid : bytes) (index res : Z) : Z :=
  match txns with
  | [] => res
  | txn :: txns =>
      if bool_decide (ID txn = txid) then index
      else scan_txns txns txid index res
  end.

Fixpoint TxnStatus_loop (fuel : nat) (iter : ChainIterator) (txid : bytes) (res : Z)
    : M Z :=
  match fuel with
  | O => fatal
  | S fuel =>
      '(block, end_, iter) ← Next iter;
      if (end_ : bool) then ret res
      else
        let res := scan_txns (Txns block) txid (Index iter) res in
        if bool_decide (res ≠ -1) then ret res
        else TxnStatus_loop fuel iter txid res
  end.

Definition TxnStatus (fuel : nat) (txid : bytes) : M Z :=
  lastHash ← getLastHash;
  TxnStatus_loop fuel (NewIterator lastHash) txid (-1).

(** [spentTXOs[txID] != nil] and one of its entries equals [outIdx]. *)
Definition is_spent (spentTXOs : gmap string (list Z)) (txID : string) (outIdx : Z) : bool :=
  match spentTXOs !! txID with
  | Some spentOuts => bool_decide (outIdx ∈ spentOuts)
  | None => false
  end.

(** The loop labelled [Outputs], from output number [outIdx] on; [outIdx] is
    the index of a [range] loop and stays below the length of the slice. *)
Fixpoint unspent_outputs (spentTXOs : gmap string (list Z)) (pubKeyHash : bytes)
    (tx : Transaction) (txID : string) (outIdx : Z) (outs : list TxOutput)
    (unspentTxs : list Transaction) : list Transaction :=
  match outs with
  | [] => unspentTxs
  | out :: outs =>
      if is_spent spentTXOs txID outIdx
      then unspent_outputs spentTXOs pubKeyHash tx txID (outIdx + 1) outs unspentTxs
      else if IsLockedWithKey out pubKeyHash
      then unspent_outputs spentTXOs pubKeyHash tx txID (outIdx + 1) outs (unspentTxs ++ [tx])
      else unspent_outputs spentTXOs pubKeyHash tx txID (outIdx + 1) outs unspentTxs
  end.

Definition unspent_block (spentTXOs : gmap string (list Z)) (pubKeyHash : bytes)
    (txns : list Transaction) (unspentTxs : list Transaction) : list Transaction :=
  foldl (λ acc tx,
           unspent_outputs spentTXOs pubKeyHash tx (EncodeToString (ID tx)) 0 (Outputs tx) acc)
        unspentTxs txns.

(** The source never writes to [spentTXOs] after creating it. *)
Fixpoint FindUnspentTransactions_loop (fuel : nat) (iter : ChainIterator)
    (spentTXOs : gmap string (list Z)) (pubKeyHash : bytes)
    (unspentTxs : list Transaction) : M (list Transaction) :=
  match fuel with
  | O => fatal
  | S fuel =>
      '(block, _, iter) ← Next iter;
      let unspentTxs := unspent_block spentTXOs pubKeyHash (Txns block) unspentTxs in
      if bool_decide (length (PrevHash block) = 0%nat) then ret unspentTxs
      else FindUnspentTransactions_loop fuel iter spentTXOs pubKeyHash unspentTxs
  end.

Definition FindUnspentTransactions (fuel : nat) (pubKeyHash : bytes)
    : M (list Transaction) :=
  let spentTXOs : gmap string (list Z) := ∅ in
  lastHash ← getLastHash;
  FindUnspentTransactions_loop fuel (NewIterator lastHash) spentTXOs pubKeyHash [].

(** The inner loop of [FindSpendableOutputs] from output number [outIdx] on;
    the boolean tells whether [break Work] was taken. *)
Fixpoint spend_outputs (pubKeyHash : bytes) (amount : Z) (txID : string) (outIdx : Z)
    (outs : list TxOutput) (accumulated : Z) (unspentOuts : gmap string (list Z))
    : Z * gmap string (list Z) * bool :=
  match outs with
  | [] => (accumulated, unspentOuts, false)
  | out :: outs =>
      if IsLockedWithKey out pubKeyHash && bool_decide (accumulated < amount) then
        let accumulated := int_add accumulated (Value out) in
        let unspentOuts :=
          <[txID := default [] (unspentOuts !! txID) ++ [outIdx]]> unspentOuts in
        if bool_decide (amount ≤ accumulated) then (accumulated, unspentOuts, true)
        else spend_outputs pubKeyHash amount txID (outIdx + 1) outs accumulated unspentOuts
      else spend_outputs pubKeyHash amount txID (outIdx + 1) outs accumulated unspentOuts
  end.

Fixpoint spend_txs (pubKeyHash : bytes) (amount : Z) (unspentTxs : list Transaction)
    (accumulated : Z) (unspentOuts : gmap string (list Z)) : Z * gmap string (list Z) :=
  match unspentTxs with
  | [] => (accumulated, unspentOuts)
  | tx :: unspentTxs =>
      let '(accumulated, unspentOuts, broke) :=
        spend_outputs pubKeyHash amount (EncodeToString (ID tx)) 0 (Outputs tx)
                      accumulated unspentOuts in
      if (broke : bool) then (accumulated, unspentOuts)
      else spend_txs pubKeyHash amount unspentTxs accumulated unspentOuts
  end.

Definition FindSpendableOutputs (fuel : nat) (pubKeyHash : bytes) (amount : Z)
    : M (Z * gmap string (list Z)) :=
  unspentTxs ← FindUnspentTransactions fuel pubKeyHash;
  ret (spend_txs pubKeyHash amount unspentTxs 0 ∅).

(** *** Resuming, snapshots and lookup of transactions *)

Section Resume.

Context `{!GobCodec}.

(** The bytes [DB.Get] returns for a stored value. *)
Definition value_bytes (data : DBValue) : bytes :=
  match data with
  | Raw bs => bs
  | Gob b => gob_bytes b
  end.

(** [ResumeFromDB]: the error is the one of [DB.Get] for an absent key. *)
Definition ResumeFromDB : M (option string) :=
  data ← db_Get LastHashKey;
  match data with
  | None => ret (Some "key not found"%string)
  | Some lastHash =>
      _ ← setLastHash (value_bytes lastHash);
      ret None
  end.

End Resume.

(** The first loop of [ResumeFromEncodedData]: the key of every block,
    decoded, appended to [keys]; a block that does not decode is fatal. *)
Fixpoint block_keys (blocks : list DBValue) (keys : list bytes) : M (list bytes) :=
  match blocks with
  | [] => ret keys
  | blockBytes :: blocks =>
      match DecodeToBlock blockBytes with
      | None => fatal
      | Some block => block_keys blocks (keys ++ [DBKeyForBlock (Hash block)])
      end
  end.

Definition ResumeFromEncodedData (blocks : list DBValue) (lastHash : bytes)
    : M (option string) :=
  keys ← block_keys blocks [];
  let keys := keys ++ [LastHashKey] in
  let values := blocks ++ [Raw lastHash] in
  _ ← db_PutMulti (zip keys values);
  _ ← setLastHash lastHash;
  ret None.

(** Modelled from the spec: [DB.GetAllWithPrefix], the values of the keys
    that start with the prefix. The order in which the store lists them is
    the order of [map_to_list] here; what is proved of [Encode] holds for
    every order. *)
Definition db_GetAllWithPrefix (prefix : bytes) : M (list DBValue) :=
  λ bc, Some ((map_to_list (filter (λ kv, prefix `prefix_of` kv.1) (DB bc))).*2, bc).

(** [BlockChain.Encode]: all the encoded blocks and the tip. *)
Definition BlockChain_Encode : M (list DBValue * bytes) :=
  blocks ← db_GetAllWithPrefix (bytes_of BlockKeyPrefix);
  lastHash ← getLastHash;
  ret (blocks, lastHash).

(** [Transaction{}] *)
Definition Transaction_zero : Transaction :=
  {| Data := None; ID := []; Inputs := []; Outputs := [];
     Signature := []; PublicKey := [] |}.

(** The inner loop of [FindTransaction]: the first transaction of the block
    with the id, if any. *)
Fixpoint find_in_block (txns : list Transaction) (id : bytes) : option Transaction :=
  match txns with
  | [] => None
  | tx :: txns => if bool_decide (ID tx = id) then Some tx else find_in_block txns id
  end.

Fixpoint FindTransaction_loop (fuel : nat) (iter : ChainIterator) (id : bytes)
    : M (Transaction * option string) :=
  match fuel with
  | O => fatal
  | S fuel =>
      '(block, _, iter) ← Next iter;
      match find_in_block (Txns block) id with
      | Some tx => ret (tx, None)
      | None =>
          if bool_decide (length (PrevHash block) = 0%nat)
          then ret (Transaction_zero, Some "Transaction does not exist"%string)
          else FindTransaction_loop fuel iter id
      end
  end.

(** [FindTransaction]: the transaction and [nil], or [Transaction{}] and an
    error. *)
Definition FindTransaction (fuel : nat) (id : bytes) : M (Transaction * option string) :=
  lastHash ← getLastHash;
  FindTransaction_loop fuel (NewIterator lastHash) id.

(** The loop of [VerifyTransaction] over the inputs, filling [prevTXs];
    [log.Panic] on an input whose transaction is not found ends the call. *)
Fixpoint collect_prevTXs (fuel : nat) (inputs : list TxInput)
    (prevTXs : gmap string Transaction) : M (gmap string Transaction) :=
  match inputs with
  | [] => ret prevTXs
  | input :: inputs =>
      '(prevTX, err) ← FindTransaction fuel (In_ID input);
      match err with
      | Some _ => fatal
      | None =>
          collect_prevTXs fuel inputs (<[EncodeToString (ID prevTX) := prevTX]> prevTXs)
      end
  end.

Definition VerifyTransaction `{!TransactionCrypto} (fuel : nat) (tx : Transaction)
    : M bool :=
  prevTXs ← collect_prevTXs fuel (Inputs tx) ∅;
  ret (tx_Verify tx prevTXs).

(** [n] calls of [Next] in a row: the blocks and end marks they return, and
    the iterator after the last call. *)
Fixpoint Next_times (n : nat) (iter : ChainIterator)
    : M (list (Block * bool) * ChainIterator) :=
  match n with
  | O => ret ([], iter)
  | S n =>
      '(block, end_, iter) ← Next iter;
      '(rest, iter) ← Next_times n iter;
      ret ((block, end_) :: rest, iter)
  end.

(** ** Notions of the specification *)

(** [h] is a key of the block store. *)
Definition stored (bc : BlockChain) (h : bytes) : Prop :=
  is_Some (DB bc !! DBKeyForBlock h).

(** The block stored under [h], decoded. *)
Definition block_at (bc : BlockChain) (h : bytes) : option Block :=
  DB bc !! DBKeyForBlock h ≫= DecodeToBlock.

(** [chain bc h bs]: following [prev_hash] from [h] visits the blocks [bs],
    tip first, and ends with a block of number 0. *)
Inductive chain (bc : BlockChain) : bytes → list Block → Prop :=
  | chain_genesis h b :
      block_at bc h = Some b → BlockNum b = 0 → chain bc h [b]
  | chain_parent h b bs :
      block_at bc h = Some b → BlockNum b ≠ 0 →
      chain bc (PrevHash b) bs → chain bc h (b :: bs).

(** The states the engine maintains: the tip is stored, every stored value
    is a block filed under its own hash, parent links lead to the genesis
    block of [Init], which is the only block of number 0, and every other
    block names a parent. *)
Record WellFormed (bc : BlockChain) : Prop := {
  wf_tip : stored bc (LastHash bc);
  wf_decodes : ∀ h, stored bc h → is_Some (block_at bc h);
  wf_key : ∀ h b, block_at bc h = Some b → Hash b = h;
  wf_chain : ∀ h b, block_at bc h = Some b → ∃ bs, chain bc h bs;
  wf_genesis : ∀ h b, block_at bc h = Some b → BlockNum b = 0 → b = Genesis;
  wf_parent : ∀ h b, block_at bc h = Some b → BlockNum b ≠ 0 → PrevHash b ≠ [];
}.

(** States reached by a successful [Init] on a fresh database followed by
    calls of [Put]. *)
Inductive reachable : BlockChain → Prop :=
  | reach_Init bc :
      Init (NewBlockChain ∅) = Some (None, bc) → reachable bc
  | reach_Put bc block owned success bc' :
      reachable bc → Put block owned bc = Some (success, bc') → reachable bc'.

(** The conditions under which [Put] turns a block down (section 4.6,
    steps 1 to 4). *)
Definition rejected (bc : BlockChain) (block : Block) (owned : bool) : Prop :=
  PrevHash block = [] ∨ Hash block = [] ∨ MinerID block = EmptyString
  ∨ BlockNum block = 0
  ∨ ¬ stored bc (PrevHash block)
  ∨ stored bc (Hash block)
  ∨ (owned = false ∧ Validate block = false).

(** [i] is the smallest index at which [l1] and [l2] differ, or the length
    of the shorter one when it is a prefix of the other. *)
Definition first_divergence (l1 l2 : list bytes) (i : nat) : Prop :=
  take i l1 = take i l2
  ∧ (i ≤ length l1)%nat ∧ (i ≤ length l2)%nat
  ∧ (i = length l1 ∨ i = length l2 ∨ l1 !! i ≠ l2 !! i).

(** The transactions of a sequence of blocks, in order. *)
Definition txns_of (bs : list Block) : list Transaction :=
  concat (Txns <$> bs).

(** Block [b] contains a transaction with id [txid]. *)
Definition contains (b : Block) (txid : bytes) : Prop :=
  ∃ txn, txn ∈ Txns b ∧ ID txn = txid.

(** The number of outputs of [tx] locked with [pubKeyHash]. *)
Definition locked_count (pubKeyHash : bytes) (tx : Transaction) : nat :=
  length (filter (λ out, IsLockedWithKey out pubKeyHash = true) (Outputs tx)).

(** The number of occurrences of [tx] in a list. *)
Definition occurrences (tx : Transaction) (l : list Transaction) : nat :=
  length (filter (λ x, x = tx) l).

(** The outputs locked with [pubKeyHash] among [outs], which are the outputs
    number [outIdx] and up of the transaction with hex id [txID]: each with
    the id, its index and its value. *)
Fixpoint locked_from (pubKeyHash : bytes) (txID : string) (outIdx : Z)
    (outs : list TxOutput) : list (string * Z * Z) :=
  match outs with
  | [] => []
  | out :: outs =>
      (if IsLockedWithKey out pubKeyHash then [(txID, outIdx, Value out)] else [])
      ++ locked_from pubKeyHash txID (outIdx + 1) outs
  end.

(** The locked outputs of a list of transactions, in scan order. *)
Definition candidates (pubKeyHash : bytes) (txs : list Transaction)
    : list (string * Z * Z) :=
  txs ≫= (λ tx, locked_from pubKeyHash (EncodeToString (ID tx)) 0 (Outputs tx)).

(** The sum of the values of a list of locked outputs, in [int] arithmetic. *)
Definition total (acc : Z) (outs : list (string * Z * Z)) : Z :=
  foldl (λ a o, int_add a o.2) acc outs.

(** The output indices recorded for [txID] in a list of locked outputs. *)
Definition indices_of (txID : string) (outs : list (string * Z * Z)) : list Z :=
  (λ o, o.1.2) <$> filter (λ o, o.1.1 = txID) outs.

(** What [FindUnspentTransactions] yields for a list of transactions: each
    of them once per output locked with [pubKeyHash]. *)
Definition emitted (pubKeyHash : bytes) (txs : list Transaction) : list Transaction :=
  txs ≫= (λ tx, replicate (locked_count pubKeyHash tx) tx).

(** The map of consumed outputs after recording a list of locked outputs. *)
Definition recorded (m : gmap string (list Z)) (outs : list (string * Z * Z))
    : gmap string (list Z) :=
  foldl (λ m o, <[o.1.1 := default [] (m !! o.1.1) ++ [o.1.2]]> m) m outs.

(** Consuming locked outputs one by one while the accumulated value is below
    [amount]; the boolean tells whether the amount was reached on the way. *)
Fixpoint consume (amount : Z) (outs : list (string * Z * Z)) (accumulated : Z)
    (m : gmap string (list Z)) : Z * gmap string (list Z) * bool :=
  match outs with
  | [] => (accumulated, m, false)
  | o :: outs =>
      if bool_decide (accumulated < amount) then
        let accumulated := int_add accumulated o.2 in
        let m := <[o.1.1 := default [] (m !! o.1.1) ++ [o.1.2]]> m in
        if bool_decide (amount ≤ accumulated) then (accumulated, m, true)
        else consume amount outs accumulated m
      else consume amount outs accumulated m
  end.

(** A computation that leaves the state as it found it. *)
Definition read_only {A} (m : M A) : Prop :=
  ∀ bc a bc', m bc = Some (a, bc') → bc' = bc.

(** The state after a computation, or the state before when it is fatal. *)
Definition after {A} (m : M A) (bc : BlockChain) : BlockChain :=
  match m bc with
  | Some (_, bc') => bc'
  | None => bc
  end.

(** The state after [Put] has admitted [block]. *)
Definition admitted (bc : BlockChain) (block : Block) : BlockChain :=
  {| LastHash := if bool_decide (PrevHash block = LastHash bc)
                 then Hash block else LastHash bc;
     DB := <[DBKeyForBlock (Hash block) := Encode block]> (DB bc) |}.

#[global] Instance stored_dec bc h : Decision (stored bc h).
Proof. unfold stored. apply _. Defined.

#[global] Instance rejected_decision bc block owned : Decision (rejected bc block owned).
Proof. unfold rejected. apply _. Defined.

#[global] Instance contains_decision b txid : Decision (contains b txid).
Proof.
  refine (cast_if (decide (Exists (λ txn, ID txn = txid) (Txns b))));
    unfold contains; rewrite Exists_exists in *; naive_solver.
Defined.

(** The depth, from the tip, of the first block of [bs] that contains
    [txid], or -1. *)
Definition depth_of (txid : bytes) (bs : list Block) : Z :=
  match list_find (λ b, contains b txid) bs with
  | Some (j, _) => Z.of_nat j
  | None => -1
  end.

(** The map that [VerifyTransaction] builds from the inputs over the
    transactions [txs] of the chain, starting from [prevTXs]. *)
Definition prev_map (txs : list Transaction) (inputs : list TxInput)
    (prevTXs : gmap string Transaction) : gmap string Transaction :=
  foldl (λ m input,
           match find_in_block txs (In_ID input) with
           | Some prev => <[EncodeToString (ID prev) := prev]> m
           | None => m
           end) prevTXs inputs.

(** The key under which [ResumeFromEncodedData] files an encoded block. *)
Definition entry_key (data : DBValue) : bytes :=
  match DecodeToBlock data with
  | Some block => DBKeyForBlock (Hash block)
  | None => []
  end.

(** The tip set by the caller: [bc.LastHash = hash]. *)
Definition with_tip (bc : BlockChain) (hash : bytes) : BlockChain :=
  {| LastHash := hash; DB := DB bc |}.

End Chain.

(** ** The client library ([evlib] package)

    The parts of the voting client that compute without the network. *)

Module Evlib.

(** [sliceMinerList]: the loop visits the miners by index; at the first one
    equal to [mAddr] it returns [append(minerList[:i], minerList[i+1:]...)].
    [rest] is what is left to visit, from index [i] on. *)
Fixpoint sliceMinerList_from (i : nat) (rest : list string) (mAddr : string)
    (minerList : list string) : list string :=
  match rest with
  | [] => minerList
  | v :: rest =>
      if bool_decide (mAddr = v) then take i minerList ++ drop (S i) minerList
      else sliceMinerList_from (S i) rest mAddr minerList
  end.

Definition sliceMinerList (mAddr : string) (minerList : list string) : list string :=
  sliceMinerList_from 0 minerList mAddr minerList.

(** The loop of [GetCandVotes] that looks the candidate up: [idx] becomes
    the index of every match in turn. *)
Fixpoint candidate_index (candidate : string) (i : nat) (cands : list string)
    (idx : nat) : nat :=
  match cands with
  | [] => idx
  | cand :: cands =>
      candidate_index candidate (S i) cands
        (if bool_decide (cand = candidate) then i else idx)
  end.

(** [GetCandVotes] once the coordinator has answered with [Votes]: the
    number of votes and the error; [None] when the index is out of range,
    where Go panics. *)
Definition GetCandVotes (CandidateList : list string) (Votes : list N)
    (candidate : string) : option (N * option string) :=
  if bool_decide (length CandidateList = 0%nat)
  then Some (0%N, Some ("Empty Candidates." +:+ String "010"%char EmptyString))
  else
    let idx := candidate_index candidate 0 CandidateList 0 in
    match Votes !! idx with
    | Some votes => Some (votes, None)
    | None => None
    end.

End Evlib.

(** ** A concrete chain

    The scenarios of section 8 of the specification, over a proof of work
    that accepts the nonce 1: a genesis block [G], the blocks [B1], [B2],
    [B3] on top of it, and the side branch [B2'], [B3'], [B4'] on top of
    [B1]. *)

Module Example.

Definition pow : ProofOfWork :=
  {| Run := λ _, (1, bytes_of "G"); Validate := λ b, bool_decide (Nonce b = 1) |}.

#[local] Existing Instance pow.

Definition alice : bytes := bytes_of "alice".
Definition bob : bytes := bytes_of "bob".

Definition ballot (voter candidate : string) : option Ballot :=
  Some {| VoterName := voter; VoterStudentID := "0"; VoterCandidate := candidate |}.

Definition txn (id : string) (inputs : list TxInput) (outputs : list TxOutput)
    : Transaction :=
  {| Data := ballot id "c"; ID := bytes_of id; Inputs := inputs; Outputs := outputs;
     Signature := []; PublicKey := [] |}.

Definition spend (id : string) (out : Z) : TxInput :=
  {| In_ID := bytes_of id; In_Out := out; In_Signature := []; In_PubKey := [] |}.

Definition pay (value : Z) (to : bytes) : TxOutput :=
  {| Value := value; PubKeyHash := to |}.

(** [T1] pays alice; [T2] spends that output and pays bob; [T3] pays alice
    twice. *)
Definition T1 : Transaction := txn "t1" [] [pay 5 alice].
Definition T2 : Transaction := txn "t2" [spend "t1" 0] [pay 5 bob].
Definition T3 : Transaction := txn "t3" [] [pay 3 alice; pay 1 bob; pay 4 alice].
Definition T2' : Transaction := txn "u2" [] [pay 2 bob].
Definition T3' : Transaction := txn "u3" [] [].
Definition T4' : Transaction := txn "u4" [] [pay 7 alice].

Definition block (prev hash : string) (num nonce : Z) (txns : list Transaction)
    : Block :=
  {| PrevHash := bytes_of prev; BlockNum := num; Nonce := nonce; Txns := txns;
     MinerID := "miner1"; Hash := bytes_of hash |}.

Definition B1 : Block := block "G" "B1" 1 1 [T1].
Definition B2 : Block := block "B1" "B2" 2 1 [T2].
Definition B3 : Block := block "B2" "B3" 3 1 [T3].
Definition B2' : Block := block "B1" "B2'" 2 1 [T2'].
Definition B3' : Block := block "B2'" "B3'" 3 1 [T3'].
Definition B4' : Block := block "B3'" "B4'" 4 1 [T4'].

(** A block whose parent is unknown, and a block mined without the work. *)
Definition Bx : Block := block "random" "Bx" 4 1 [].
Definition Bw : Block := block "B3" "Bw" 4 0 [].

Definition s0 : BlockChain := after Init (NewBlockChain ∅).
Definition s1 : BlockChain := after (Put B1 false) s0.
Definition s2 : BlockChain := after (Put B2 false) s1.
Definition s3 : BlockChain := after (Put B3 false) s2.
Definition s4 : BlockChain := after (Put B2' false) s3.
Definition s5 : BlockChain := after (Put B3' false) s4.
Definition s6 : BlockChain := after (Put B4' false) s5.

(** A gob encoding and a signature check to run the examples with. *)
Definition gob : GobCodec := {| gob_bytes := λ b, Hash b |}.
Definition crypto : TransactionCrypto :=
  {| tx_Verify := λ tx prevTXs, bool_decide (size prevTXs = length (Inputs tx)) |}.

End Example.

(** ** Properties *)

Section Properties.

Context `{!ProofOfWork}.

(** *** Keys and elementary operations *)

Lemma DBKeyForBlock_inj h1 h2 : DBKeyForBlock h1 = DBKeyForBlock h2 → h1 = h2.
Proof. unfold DBKeyForBlock. apply app_inv_head. Qed.

Lemma DBKeyForBlock_LastHashKey h : DBKeyForBlock h ≠ LastHashKey.
Proof. unfold DBKeyForBlock, LastHashKey. cbn. discriminate. Qed.

Lemma length_zero_nil {A} (l : list A) : length l = 0%nat ↔ l = [].
Proof. destruct l; simpl; split; intros; congruence. Qed.

Lemma string_length_zero (s : string) : String.length s = 0%nat ↔ s = EmptyString.
Proof. destruct s; simpl; split; intros; congruence. Qed.

Ltac msimpl :=
  unfold ret, fatal, getLastHash, setLastHash, Exist, KeyExist, db_Get, db_Put,
    db_PutMulti;
  unfold mbind, M_bind, mret, M_ret; cbn beta iota.

Lemma Get_block_at hash bc :
  Get hash bc = match block_at bc hash with
                | Some block => Some (block, bc)
                | None => None
                end.
Proof.
  unfold Get, block_at. msimpl.
  destruct (DB bc !! DBKeyForBlock hash) as [data|]; simpl; [|done].
  by destruct (DecodeToBlock data).
Qed.


Lemma block_at_stored bc h b : block_at bc h = Some b → stored bc h.
Proof.
  unfold block_at, stored. destruct (DB bc !! DBKeyForBlock h); [eauto|done].
Qed.

Lemma Next_block_at iter bc :
  Next iter bc =
    match block_at bc (CurrentHash iter) with
    | Some block =>
        Some (block, bool_decide (BlockNum block = 0),
              {| Iter_LastHash := Iter_LastHash iter;
                 CurrentHash := PrevHash block;
                 Index := int_add (Index iter) 1 |}, bc)
    | None => None
    end.
Proof.
  unfold Next. unfold mbind at 1, M_bind. rewrite Get_block_at.
  by destruct (block_at bc (CurrentHash iter)).
Qed.

(** ** Block admission *)

Ltac empty_fields :=
  repeat match goal with
    | H : context [length _ = 0%nat] |- _ => rewrite length_zero_nil in H
    | H : context [String.length _ = 0%nat] |- _ => rewrite string_length_zero in H
    end.

Lemma Put_rejected bc block owned :
  rejected bc block owned → Put block owned bc = Some (false, bc).
Proof.
  unfold rejected, Put. intros Hrej.
  repeat (case_bool_decide; simpl; [done|]). empty_fields.
  msimpl.
  case_bool_decide; simpl; [|done].
  case_bool_decide; simpl; [done|].
  destruct owned; simpl.
  - intuition congruence.
  - destruct (Validate block) eqn:Hv; simpl; [|done]. intuition congruence.
Qed.

Lemma Put_admitted bc block owned :
  ¬ rejected bc block owned → Put block owned bc = Some (true, admitted bc block).
Proof.
  unfold rejected, Put. intros Hrej.
  repeat (case_bool_decide; simpl; [empty_fields; intuition congruence|]).
  msimpl.
  case_bool_decide; simpl; [|intuition congruence].
  case_bool_decide; simpl; [intuition congruence|].
  assert (negb owned && negb (Validate block) = false) as ->.
  { destruct owned, (Validate block) eqn:Hv; simpl; try done. intuition congruence. }
  unfold admitted. simpl. by case_bool_decide.
Qed.

Lemma rejected_dec bc block owned :
  rejected bc block owned ∨ ¬ rejected bc block owned.
Proof. destruct (decide (rejected bc block owned)); tauto. Qed.

(** *** Chains *)

Lemma Genesis_BlockNum : BlockNum Genesis = 0.
Proof. unfold Genesis. by destruct (Run _). Qed.

Lemma Genesis_PrevHash : PrevHash Genesis = [].
Proof. unfold Genesis. by destruct (Run _). Qed.

Lemma Genesis_Txns : Txns Genesis = [].
Proof. unfold Genesis. by destruct (Run _). Qed.

Lemma chain_functional bc h bs1 bs2 :
  chain bc h bs1 → chain bc h bs2 → bs1 = bs2.
Proof.
  intros H1. revert bs2.
  induction H1 as [h b Hb Hn|h b bs Hb Hn _ IH]; intros bs2 H2;
    inversion H2; simplify_eq; try done.
  f_equal. by apply IH.
Qed.

Lemma chain_nonempty bc h bs : chain bc h bs → bs ≠ [].
Proof. by destruct 1. Qed.

Lemma chain_head bc h bs :
  chain bc h bs → ∃ b bs', bs = b :: bs' ∧ block_at bc h = Some b.
Proof. destruct 1; eauto. Qed.

(** A chain is a run of blocks of non-zero number followed by one block of
    number 0. *)
Lemma chain_split bc h bs :
  chain bc h bs →
  ∃ body g, bs = body ++ [g] ∧ BlockNum g = 0
            ∧ Forall (λ b, BlockNum b ≠ 0) body.
Proof.
  induction 1 as [h b Hb Hn|h b bs Hb Hn _ (body & g & -> & Hg & Hbody)].
  - exists [], b. by repeat split.
  - exists (b :: body), g. repeat split; [done|]. by constructor.
Qed.

Lemma chain_blocks_stored bc h bs :
  chain bc h bs → Forall (λ b, ∃ h', block_at bc h' = Some b) bs.
Proof.
  induction 1; repeat constructor; eauto.
Qed.

(** Adding entries to the database keeps the chains it has. *)
Lemma block_at_extend bc bc' h b :
  DB bc ⊆ DB bc' → block_at bc h = Some b → block_at bc' h = Some b.
Proof.
  intros Hsub. unfold block_at.
  destruct (DB bc !! DBKeyForBlock h) as [v|] eqn:Hv; [|done].
  by rewrite (lookup_weaken _ _ _ _ Hv Hsub).
Qed.

Lemma chain_extend bc bc' h bs :
  DB bc ⊆ DB bc' → chain bc h bs → chain bc' h bs.
Proof.
  intros Hsub. induction 1.
  - apply chain_genesis; eauto using block_at_extend.
  - apply chain_parent; eauto using block_at_extend.
Qed.

(** *** The invariant *)

Lemma block_at_admitted bc block h :
  block_at (admitted bc block) h =
    if decide (h = Hash block) then Some block else block_at bc h.
Proof.
  unfold block_at, admitted. simpl. case_decide as Hh.
  - subst. by rewrite lookup_insert_eq.
  - rewrite lookup_insert_ne; [done|]. intros Heq. by apply DBKeyForBlock_inj in Heq.
Qed.

Lemma stored_admitted bc block h :
  stored (admitted bc block) h ↔ h = Hash block ∨ stored bc h.
Proof.
  unfold stored, admitted. simpl. destruct (decide (h = Hash block)) as [->|Hh].
  - rewrite lookup_insert_eq. split; eauto.
  - rewrite lookup_insert_ne.
    + split; [eauto|]. by intros [?|?].
    + intros Heq. by apply DBKeyForBlock_inj in Heq.
Qed.

Lemma admitted_extends bc block :
  ¬ stored bc (Hash block) → DB bc ⊆ DB (admitted bc block).
Proof.
  intros Hnew. unfold admitted. simpl. apply insert_subseteq.
  unfold stored in Hnew. by apply eq_None_not_Some.
Qed.

Lemma Init_fresh bc :
  Init (NewBlockChain ∅) = Some (None, bc) →
  bc = {| LastHash := Hash Genesis;
          DB := <[LastHashKey := Raw (Hash Genesis)]>
                  (<[DBKeyForBlock (Hash Genesis) := Gob Genesis]> ∅) |}.
Proof.
  unfold Init, NewBlockChain. msimpl. simpl.
  rewrite lookup_empty. rewrite bool_decide_false by (by intros [? ?]).
  simpl. by intros [= <-].
Qed.

Lemma Init_WellFormed bc :
  Init (NewBlockChain ∅) = Some (None, bc) → WellFormed bc.
Proof.
  intros ->%Init_fresh.
  assert (∀ h b,
    block_at {| LastHash := Hash Genesis;
                DB := <[LastHashKey := Raw (Hash Genesis)]>
                        (<[DBKeyForBlock (Hash Genesis) := Gob Genesis]> ∅) |} h
      = Some b → h = Hash Genesis ∧ b = Genesis) as Hat.
  { intros h b. unfold block_at. simpl.
    rewrite lookup_insert_ne by (intros Heq; by eapply DBKeyForBlock_LastHashKey).
    destruct (decide (h = Hash Genesis)) as [->|Hh].
    - rewrite lookup_insert_eq. simpl. by intros [= <-].
    - rewrite lookup_insert_ne, lookup_empty; [done|].
      intros Heq. by apply DBKeyForBlock_inj in Heq. }
  assert (block_at {| LastHash := Hash Genesis;
                DB := <[LastHashKey := Raw (Hash Genesis)]>
                        (<[DBKeyForBlock (Hash Genesis) := Gob Genesis]> ∅) |}
            (Hash Genesis) = Some Genesis) as Hg.
  { unfold block_at. simpl.
    rewrite lookup_insert_ne by (intros Heq; by eapply DBKeyForBlock_LastHashKey).
    by rewrite lookup_insert_eq. }
  split; simpl.
  - eapply block_at_stored, Hg.
  - intros h [v Hv]. unfold stored, block_at in *. simpl in *.
    rewrite lookup_insert_ne in Hv by (intros Heq; by eapply DBKeyForBlock_LastHashKey).
    rewrite lookup_insert_ne by (intros Heq; by eapply DBKeyForBlock_LastHashKey).
    destruct (decide (h = Hash Genesis)) as [->|Hh].
    + rewrite lookup_insert_eq. simpl. eauto.
    + rewrite lookup_insert_ne, lookup_empty in Hv; [done|].
      intros Heq. by apply DBKeyForBlock_inj in Heq.
  - intros h b [-> ->]%Hat. done.
  - intros h b [-> ->]%Hat. exists [Genesis].
    apply chain_genesis; [done|apply Genesis_BlockNum].
  - by intros h b [-> ->]%Hat.
  - intros h b [-> ->]%Hat Hn. by rewrite Genesis_BlockNum in Hn.
Qed.

Lemma admitted_WellFormed bc block owned :
  WellFormed bc → ¬ rejected bc block owned → WellFormed (admitted bc block).
Proof.
  intros Hwf Hrej. unfold rejected in Hrej.
  assert (¬ stored bc (Hash block)) as Hnew by tauto.
  assert (stored bc (PrevHash block)) as Hprev.
  { destruct (decide (stored bc (PrevHash block))); [done|tauto]. }
  pose proof (admitted_extends _ _ Hnew) as Hsub.
  assert (∃ bs, chain (admitted bc block) (Hash block) bs) as Hchain.
  { destruct (wf_decodes _ Hwf _ Hprev) as [p Hp].
    destruct (wf_chain _ Hwf _ _ Hp) as [bs Hbs].
    exists (block :: bs). apply chain_parent.
    - rewrite block_at_admitted. by rewrite decide_True.
    - tauto.
    - by eapply chain_extend. }
  split.
  - apply stored_admitted. unfold admitted; simpl.
    case_bool_decide; [by left|right; apply (wf_tip _ Hwf)].
  - intros h [->|Hh]%stored_admitted; rewrite block_at_admitted.
    + rewrite decide_True by done. eauto.
    + case_decide; [eauto|]. by apply (wf_decodes _ Hwf).
  - intros h b. rewrite block_at_admitted. case_decide; [by intros [= <-]|].
    apply (wf_key _ Hwf).
  - intros h b. rewrite block_at_admitted. case_decide as Hh.
    + intros [= <-]. by subst.
    + intros Hb. destruct (wf_chain _ Hwf _ _ Hb) as [bs Hbs].
      exists bs. by eapply chain_extend.
  - intros h b. rewrite block_at_admitted. case_decide.
    + intros [= <-]. tauto.
    + apply (wf_genesis _ Hwf).
  - intros h b. rewrite block_at_admitted. case_decide.
    + intros [= <-]. tauto.
    + apply (wf_parent _ Hwf).
Qed.

Lemma Put_WellFormed bc block owned success bc' :
  WellFormed bc → Put block owned bc = Some (success, bc') → WellFormed bc'.
Proof.
  intros Hwf. destruct (rejected_dec bc block owned) as [Hrej|Hrej].
  - rewrite Put_rejected by done. by intros [= <- <-].
  - rewrite Put_admitted by done. intros [= <- <-].
    by eapply admitted_WellFormed.
Qed.

Lemma reachable_WellFormed bc : reachable bc → WellFormed bc.
Proof.
  induction 1; eauto using Init_WellFormed, Put_WellFormed.
Qed.

Lemma reachable_after_Init : reachable (after Init (NewBlockChain ∅)).
Proof.
  apply reach_Init. unfold after, Init, NewBlockChain. msimpl. simpl.
  rewrite lookup_empty. by rewrite bool_decide_false by (by intros [? ?]).
Qed.

Lemma reachable_after_Put bc block owned :
  reachable bc → reachable (after (Put block owned) bc).
Proof.
  intros Hbc. unfold after.
  destruct (Put block owned bc) as [[success bc']|] eqn:HPut; [|done].
  by eapply reach_Put.
Qed.

(** In a well-formed state the chain of a stored hash ends with the genesis
    block, and every block of it is filed under its own hash. *)
Lemma WellFormed_chain bc h :
  WellFormed bc → stored bc h →
  ∃ body, chain bc h (body ++ [Genesis])
          ∧ Forall (λ b, BlockNum b ≠ 0 ∧ PrevHash b ≠ []) body
          ∧ Forall (λ b, block_at bc (Hash b) = Some b) (body ++ [Genesis]).
Proof.
  intros Hwf Hh.
  destruct (wf_decodes _ Hwf _ Hh) as [b Hb].
  destruct (wf_chain _ Hwf _ _ Hb) as [bs Hbs].
  pose proof (chain_blocks_stored _ _ _ Hbs) as Hst.
  destruct (chain_split _ _ _ Hbs) as (body & g & -> & Hg & Hbody).
  assert (g = Genesis) as ->.
  { apply Forall_app in Hst as [_ Hst]. apply Forall_singleton in Hst as [h' Hh'].
    by eapply wf_genesis. }
  exists body. split; [done|]. split.
  - apply Forall_app in Hst as [Hst _].
    rewrite Forall_forall in Hst, Hbody. apply Forall_forall. intros x Hx.
    split; [by apply Hbody|].
    destruct (Hst x Hx) as [h' Hh']. eapply wf_parent; eauto.
  - eapply Forall_impl; [exact Hst|]. intros x [h' Hh']. simpl.
    by rewrite (wf_key _ Hwf _ _ Hh').
Qed.

Lemma chain_inv_last bc h g :
  chain bc h [g] → block_at bc h = Some g ∧ BlockNum g = 0.
Proof.
  inversion 1 as [|? ? ? ? ? Hc]; subst; [done|]. by apply chain_nonempty in Hc.
Qed.

Lemma chain_inv_body bc h b body g :
  chain bc h (b :: body ++ [g]) →
  block_at bc h = Some b ∧ BlockNum b ≠ 0 ∧ chain bc (PrevHash b) (body ++ [g]).
Proof.
  inversion 1 as [? ? ? ? [Heq Hnil]|]; subst; [|done].
  by destruct body.
Qed.

(** *** Integers *)

Lemma int_wrap_small z : - 2 ^ 63 ≤ z < 2 ^ 63 → int_wrap z = z.
Proof. intros Hz. unfold int_wrap. rewrite Z.mod_small; lia. Qed.

Lemma int_add_small a b : - 2 ^ 63 ≤ a + b < 2 ^ 63 → int_add a b = a + b.
Proof. apply int_wrap_small. Qed.

(** *** Read-only computations *)

Lemma read_only_ret {A} (a : A) : read_only (ret a).
Proof. intros bc a' bc'. unfold ret, mret, M_ret. by intros [= _ <-]. Qed.

Lemma read_only_fatal {A} : read_only (@fatal A).
Proof. by intros bc a bc'. Qed.

Lemma read_only_bind {A B} (m : M A) (k : A → M B) :
  read_only m → (∀ a, read_only (k a)) → read_only (m ≫= k).
Proof.
  intros Hm Hk bc b bc'. unfold mbind, M_bind.
  destruct (m bc) as [[a bc1]|] eqn:Hmbc; [|done].
  apply Hm in Hmbc as ->. apply Hk.
Qed.

Lemma read_only_getLastHash : read_only getLastHash.
Proof. intros bc a bc'. unfold getLastHash. by intros [= _ <-]. Qed.

Lemma read_only_Get hash : read_only (Get hash).
Proof.
  intros bc a bc'. rewrite Get_block_at.
  destruct (block_at bc hash); [by intros [= _ <-]|done].
Qed.

Lemma read_only_Next iter : read_only (Next iter).
Proof.
  intros bc a bc'. rewrite Next_block_at.
  destruct (block_at bc (CurrentHash iter)); [by intros [= _ <-]|done].
Qed.

Lemma read_only_collect_hashes fuel :
  ∀ iter blockHashes, read_only (collect_hashes fuel iter blockHashes).
Proof.
  induction fuel as [|fuel IH]; intros iter blockHashes; simpl.
  - apply read_only_fatal.
  - apply read_only_bind; [apply read_only_Next|].
    intros [[block end_] iter']. destruct end_; [apply read_only_ret|apply IH].
Qed.

Lemma read_only_collect_txns hashes :
  ∀ txns, read_only (collect_txns hashes txns).
Proof.
  induction hashes as [|hash hashes IH]; intros txns; simpl.
  - apply read_only_ret.
  - apply read_only_bind; [apply read_only_Get|]. intros block. apply IH.
Qed.

Lemma read_only_CheckoutFork fuel lastHashNew :
  read_only (CheckoutFork fuel lastHashNew).
Proof.
  unfold CheckoutFork.
  apply read_only_bind; [apply read_only_getLastHash|]. intros lastHash.
  case_bool_decide; [apply read_only_ret|].
  apply read_only_bind; [apply read_only_collect_hashes|]. intros blockHashesNew.
  apply read_only_bind; [apply read_only_collect_hashes|]. intros blockHashesOld.
  apply read_only_bind; [apply read_only_collect_txns|]. intros newTxns.
  apply read_only_bind; [apply read_only_collect_txns|]. intros oldTxns.
  apply read_only_ret.
Qed.

(** *** Fork reconciliation *)

Lemma collect_hashes_chain bc g :
  ∀ body fuel h il idx acc,
    chain bc h (body ++ [g]) → (length body < fuel)%nat →
    collect_hashes fuel {| Iter_LastHash := il; CurrentHash := h; Index := idx |} acc bc
    = Some (reverse (Hash <$> body) ++ acc, bc).
Proof.
  induction body as [|b body IH]; intros fuel h il idx acc Hc Hfuel;
    (destruct fuel as [|fuel]; [simpl in Hfuel; lia|]); simpl.
  - apply chain_inv_last in Hc as [Hb Hn].
    unfold mbind, M_bind. rewrite Next_block_at. simpl. rewrite Hb.
    by rewrite bool_decide_true.
  - apply chain_inv_body in Hc as (Hb & Hn & Hc).
    unfold mbind, M_bind. rewrite Next_block_at. simpl. rewrite Hb.
    rewrite bool_decide_false by done.
    rewrite (IH fuel) by (simpl in Hfuel; done || lia).
    by rewrite reverse_cons, <- app_assoc.
Qed.

Lemma foldl_snoc (txns l : list Transaction) :
  foldl (λ acc txn, acc ++ [txn]) txns l = txns ++ l.
Proof.
  revert txns. induction l as [|x l IH]; intros txns; simpl.
  - by rewrite app_nil_r.
  - rewrite IH. by rewrite <- app_assoc.
Qed.

Lemma collect_txns_blocks bc bs :
  Forall (λ b, block_at bc (Hash b) = Some b) bs →
  ∀ txns, collect_txns (Hash <$> bs) txns bc = Some (txns ++ txns_of bs, bc).
Proof.
  induction 1 as [|b bs Hb _ IH]; intros txns; simpl.
  - unfold txns_of. simpl. by rewrite app_nil_r.
  - unfold mbind, M_bind. rewrite Get_block_at, Hb.
    rewrite IH, foldl_snoc. unfold txns_of. simpl. by rewrite app_assoc.
Qed.

Lemma first_different_divergence l1 l2 :
  ∀ n i, (i + n = length l1 `min` length l2)%nat → take i l1 = take i l2 →
         first_divergence l1 l2 (first_different n i l1 l2).
Proof.
  induction n as [|n IH]; intros i Hin Htake; simpl.
  - unfold first_divergence. repeat split; [done|lia|lia|lia].
  - case_bool_decide as Heq.
    + apply IH; [lia|].
      destruct (lookup_lt_is_Some_2 l1 i) as [x Hx]; [lia|].
      rewrite (take_S_r l1 i x) by done.
      rewrite Heq in Hx. rewrite (take_S_r l2 i x) by done.
      by rewrite Htake.
    + unfold first_divergence. repeat split; [done|lia|lia|tauto].
Qed.

Lemma first_divergence_unique l1 l2 i j :
  first_divergence l1 l2 i → first_divergence l1 l2 j → i = j.
Proof.
  assert (∀ i j, first_divergence l1 l2 i → first_divergence l1 l2 j → ¬ (i < j)%nat)
    as Hlt.
  { clear. intros i j (_ & Hi1 & Hi2 & Hi) (Hj & Hj1 & Hj2 & _) Hij.
    destruct Hi as [Hi|[Hi|Hi]]; [lia|lia|]. apply Hi.
    rewrite <- (lookup_take_lt l1 j i), <- (lookup_take_lt l2 j i) by done.
    by rewrite Hj. }
  intros Hi Hj. pose proof (Hlt _ _ Hi Hj). pose proof (Hlt _ _ Hj Hi). lia.
Qed.

Lemma first_divergence_cons x l1 l2 i :
  first_divergence l1 l2 i → first_divergence (x :: l1) (x :: l2) (S i).
Proof.
  intros (Ht & H1 & H2 & Hd). unfold first_divergence. simpl.
  rewrite Ht. repeat split; [lia|lia|]. destruct Hd as [->|[->|Hd]]; tauto.
Qed.

(** C1. In a well-formed state, for a stored candidate tip other than the
    current one, [CheckoutFork] returns the transactions of the blocks of
    the new chain, and those of the current chain, from the first index at
    which the two genesis-first sequences of block hashes differ. *)
Theorem CheckoutFork_fork_difference bc newTip :
  WellFormed bc → stored bc newTip → newTip ≠ LastHash bc →
  ∃ chainNew chainOld i,
    chain bc newTip chainNew ∧ chain bc (LastHash bc) chainOld
    ∧ first_divergence (Hash <$> reverse chainNew) (Hash <$> reverse chainOld) i
    ∧ ∀ fuel, (length chainNew ≤ fuel)%nat → (length chainOld ≤ fuel)%nat →
        CheckoutFork fuel newTip bc
        = Some ((txns_of (drop i (reverse chainNew)),
                 txns_of (drop i (reverse chainOld))), bc).
Proof.
  intros Hwf Hnew Hne.
  destruct (WellFormed_chain _ _ Hwf Hnew) as (bodyN & HcN & _ & HstN).
  destruct (WellFormed_chain _ _ Hwf (wf_tip _ Hwf)) as (bodyO & HcO & _ & HstO).
  set (hsN := reverse (Hash <$> bodyN)). set (hsO := reverse (Hash <$> bodyO)).
  set (i := first_different (length hsN `min` length hsO)%nat 0 hsN hsO).
  assert (first_divergence hsN hsO i) as Hi.
  { apply first_different_divergence; [lia|done]. }
  exists (bodyN ++ [Genesis]), (bodyO ++ [Genesis]), (S i).
  split; [done|]. split; [done|].
  rewrite !reverse_app, !reverse_singleton. simpl. split.
  { rewrite !fmap_reverse. by apply first_divergence_cons. }
  intros fuel HfN HfO. rewrite !length_app in HfN, HfO. simpl in HfN, HfO.
  unfold CheckoutFork, NewIterator. unfold mbind, M_bind, getLastHash.
  rewrite bool_decide_false by done.
  rewrite (collect_hashes_chain _ Genesis bodyN) by (done || lia).
  rewrite (collect_hashes_chain _ Genesis bodyO) by (done || lia).
  rewrite !app_nil_r. fold hsN hsO. fold i.
  unfold hsN, hsO. rewrite <- !fmap_reverse, <- !fmap_drop.
  apply Forall_app in HstN as [HstN _]. apply Forall_app in HstO as [HstO _].
  rewrite collect_txns_blocks by (by apply Forall_drop, Forall_reverse).
  rewrite collect_txns_blocks by (by apply Forall_drop, Forall_reverse).
  done.
Qed.

(** C9. [CheckoutFork] leaves the tip and the database as they were, and for
    the current tip it returns two empty sequences. *)
Theorem CheckoutFork_pure fuel lastHashNew bc :
  (∀ result bc', CheckoutFork fuel lastHashNew bc = Some (result, bc') → bc' = bc)
  ∧ CheckoutFork fuel (LastHash bc) bc = Some (([], []), bc).
Proof.
  split.
  - intros result bc'. apply read_only_CheckoutFork.
  - unfold CheckoutFork. unfold mbind, M_bind, getLastHash.
    by rewrite bool_decide_true.
Qed.

(** *** Block admission *)

(** C4. [Put] returns false when a field is missing, the block number is 0,
    the parent is unknown, the hash is already stored, or the block is not
    owned and fails proof-of-work validation; in every other case, and so
    without validation for an owned block, it stores the block and returns
    true. *)
Theorem Put_admission bc block owned :
  (rejected bc block owned → Put block owned bc = Some (false, bc))
  ∧ (¬ rejected bc block owned →
     ∃ bc', Put block owned bc = Some (true, bc')
            ∧ DB bc' !! DBKeyForBlock (Hash block) = Some (Encode block)).
Proof.
  split.
  - apply Put_rejected.
  - intros Hrej. exists (admitted bc block). split; [by apply Put_admitted|].
    unfold admitted. simpl. apply lookup_insert_eq.
Qed.

(** C3. A call of [Put] that returns false leaves the state as it was, and
    [Put] returns false for a block whose hash is stored: a second call
    with a block just admitted is turned down. *)
Theorem Put_false_unchanged bc block owned :
  (∀ bc', Put block owned bc = Some (false, bc') → bc' = bc)
  ∧ (stored bc (Hash block) → Put block owned bc = Some (false, bc))
  ∧ (∀ bc', Put block owned bc = Some (true, bc') →
       ∀ owned', Put block owned' bc' = Some (false, bc')).
Proof.
  split; [|split].
  - intros bc'. destruct (rejected_dec bc block owned) as [Hrej|Hrej].
    + rewrite Put_rejected by done. by intros [= <-].
    + by rewrite Put_admitted.
  - intros Hdup. apply Put_rejected. unfold rejected. tauto.
  - intros bc'. destruct (rejected_dec bc block owned) as [Hrej|Hrej].
    + by rewrite Put_rejected.
    + rewrite Put_admitted by done. intros [= <-] owned'.
      apply Put_rejected. unfold rejected. do 5 right. left.
      apply stored_admitted. by left.
Qed.

(** C5. When [Put] admits a block, the tip becomes the block's hash if the
    block's parent was the tip and stays as it was otherwise; the block is
    stored under a key that was free, and every other entry of the database
    is as before. *)
Theorem Put_tip_update bc block owned bc' :
  Put block owned bc = Some (true, bc') →
  (PrevHash block = LastHash bc → LastHash bc' = Hash block)
  ∧ (PrevHash block ≠ LastHash bc → LastHash bc' = LastHash bc)
  ∧ DB bc !! DBKeyForBlock (Hash block) = None
  ∧ DB bc' !! DBKeyForBlock (Hash block) = Some (Encode block)
  ∧ (∀ key, key ≠ DBKeyForBlock (Hash block) → DB bc' !! key = DB bc !! key).
Proof.
  destruct (rejected_dec bc block owned) as [Hrej|Hrej].
  { by rewrite Put_rejected. }
  rewrite Put_admitted by done. intros [= <-]. unfold admitted. simpl.
  repeat split.
  - intros Heq. by rewrite bool_decide_true.
  - intros Hne. by rewrite bool_decide_false.
  - apply eq_None_not_Some. unfold rejected, stored in Hrej. tauto.
  - apply lookup_insert_eq.
  - intros key Hkey. by rewrite lookup_insert_ne.
Qed.

(** C6. In a state reached by [Init] and calls of [Put], every stored block
    is the genesis block, of number 0 and without parent, or has a stored
    parent, and the tip is stored. *)
Theorem reachable_invariants bc :
  reachable bc →
  (∀ h b, block_at bc h = Some b →
          (BlockNum b = 0 ∧ PrevHash b = []) ∨ stored bc (PrevHash b))
  ∧ (∀ h, stored bc h → is_Some (block_at bc h))
  ∧ stored bc (LastHash bc).
Proof.
  intros Hwf%reachable_WellFormed. split; [|split].
  - intros h b Hb. destruct (wf_chain _ Hwf _ _ Hb) as [bs Hbs].
    inversion Hbs as [? b0 Hb0 Hn|? b0 bs0 Hb0 Hn Hc]; simplify_eq.
    + left. split; [done|]. rewrite (wf_genesis _ Hwf _ _ Hb Hn).
      apply Genesis_PrevHash.
    + right. apply chain_head in Hc as (p & ? & _ & Hp).
      by eapply block_at_stored.
  - apply (wf_decodes _ Hwf).
  - apply (wf_tip _ Hwf).
Qed.

(** *** Transaction status *)

Lemma scan_txns_found txns txid index res :
  (∃ txn, txn ∈ txns ∧ ID txn = txid) → scan_txns txns txid index res = index.
Proof.
  induction txns as [|txn txns IH]; simpl.
  - intros (? & []%elem_of_nil & _).
  - intros (x & Hx & Hid). case_bool_decide; [done|].
    apply IH. apply elem_of_cons in Hx as [->|Hx]; [done|eauto].
Qed.

Lemma scan_txns_missing txns txid index res :
  ¬ (∃ txn, txn ∈ txns ∧ ID txn = txid) → scan_txns txns txid index res = res.
Proof.
  induction txns as [|txn txns IH]; simpl; [done|].
  intros Hno. case_bool_decide.
  - destruct Hno. exists txn. split; [apply elem_of_cons; by left|done].
  - apply IH. intros (x & Hx & Hid). apply Hno. exists x.
    split; [apply elem_of_cons; by right|done].
Qed.

Lemma contains_dec b txid : contains b txid ∨ ¬ contains b txid.
Proof.
  unfold contains.
  destruct (decide (Exists (λ txn, ID txn = txid) (Txns b))) as [He|He].
  - left. apply Exists_exists in He. naive_solver.
  - right. intros (x & Hx & Hid). apply He, Exists_exists. eauto.
Qed.

Lemma TxnStatus_loop_chain bc g txid :
  ∀ body fuel h il idx,
    chain bc h (body ++ [g]) → (length body < fuel)%nat →
    -1 ≤ idx → idx + Z.of_nat (length body) + 1 < 2 ^ 63 →
    ∃ res,
      TxnStatus_loop fuel {| Iter_LastHash := il; CurrentHash := h; Index := idx |}
                     txid (-1) bc = Some (res, bc)
      ∧ ((res = -1 ∧ Forall (λ b, ¬ contains b txid) body)
         ∨ (∃ j b, res = idx + 1 + Z.of_nat j ∧ body !! j = Some b ∧ contains b txid
                   ∧ ∀ j' b', (j' < j)%nat → body !! j' = Some b' → ¬ contains b' txid)).
Proof.
  induction body as [|b body IH]; intros fuel h il idx Hc Hfuel Hidx Hmax;
    (destruct fuel as [|fuel]; [simpl in Hfuel; lia|]); simpl.
  - apply chain_inv_last in Hc as [Hb Hn].
    unfold mbind, M_bind. rewrite Next_block_at. simpl. rewrite Hb.
    rewrite bool_decide_true by done. exists (-1). split; [done|]. by left.
  - apply chain_inv_body in Hc as (Hb & Hn & Hc).
    unfold mbind, M_bind. rewrite Next_block_at. simpl. rewrite Hb.
    rewrite bool_decide_false by done. simpl in Hmax.
    rewrite int_add_small by lia.
    destruct (contains_dec b txid) as [Hin|Hout].
    + rewrite scan_txns_found by done. cbn [Index].
      rewrite bool_decide_true by lia.
      exists (idx + 1). split; [done|]. right. exists 0%nat, b.
      repeat split; [lia|done|]. intros j' b' Hj'. lia.
    + rewrite scan_txns_missing by done. rewrite bool_decide_false by lia.
      destruct (IH fuel (PrevHash b) il (idx + 1)) as (res & Hres & Hspec);
        [done|simpl in Hfuel; lia|lia|lia|].
      exists res. split; [done|].
      destruct Hspec as [[-> Hall]|(j & b' & -> & Hj & Hin & Hmin)].
      * left. split; [done|]. by constructor.
      * right. exists (S j), b'. repeat split; [lia|done|done|].
        intros [|j'] b'' Hlt; simpl; [by intros [= <-]|].
        apply Hmin. lia.
Qed.

(** C7. In a well-formed state whose current chain is shorter than 2^63
    blocks, [TxnStatus] returns the depth, counted from the tip, of the first
    block of the current chain that contains the transaction, and -1 when no
    block of the chain contains it. *)
Theorem TxnStatus_depth bc txid :
  WellFormed bc →
  ∃ bs, chain bc (LastHash bc) bs
    ∧ ∀ fuel, (length bs ≤ fuel)%nat → Z.of_nat (length bs) < 2 ^ 63 →
        ∃ k, TxnStatus fuel txid bc = Some (k, bc)
          ∧ ((k = -1 ∧ ∀ b, b ∈ bs → ¬ contains b txid)
             ∨ (0 ≤ k ∧ ∃ b, bs !! Z.to_nat k = Some b ∧ contains b txid
                ∧ ∀ j b', (j < Z.to_nat k)%nat → bs !! j = Some b' →
                          ¬ contains b' txid)).
Proof.
  intros Hwf.
  destruct (WellFormed_chain _ _ Hwf (wf_tip _ Hwf)) as (body & Hc & _ & _).
  exists (body ++ [Genesis]). split; [done|].
  intros fuel Hfuel Hmax. rewrite length_app in Hfuel, Hmax. simpl in Hfuel, Hmax.
  destruct (TxnStatus_loop_chain bc Genesis txid body fuel (LastHash bc)
              (LastHash bc) (-1)) as (res & Hres & Hspec); [done|lia|lia|lia|].
  exists res. split.
  { unfold TxnStatus, NewIterator. unfold mbind, M_bind, getLastHash. exact Hres. }
  destruct Hspec as [[-> Hall]|(j & b & -> & Hj & Hin & Hmin)].
  - left. split; [done|]. intros b [Hb|Hb]%elem_of_app.
    + rewrite Forall_forall in Hall. by apply Hall.
    + apply list_elem_of_singleton in Hb as ->.
      intros (txn & Htxn & _). rewrite Genesis_Txns in Htxn.
      by apply elem_of_nil in Htxn.
  - right. split; [lia|]. exists b.
    replace (Z.to_nat (-1 + 1 + Z.of_nat j)) with j by lia.
    apply lookup_lt_Some in Hj as Hlen.
    repeat split; [by rewrite lookup_app_l|done|].
    intros j' b' Hlt. rewrite lookup_app_l by lia. by apply Hmin.
Qed.

(** *** Unspent transactions *)

Lemma is_spent_empty txID outIdx : is_spent ∅ txID outIdx = false.
Proof. unfold is_spent. by rewrite lookup_empty. Qed.

Lemma unspent_outputs_empty pubKeyHash tx txID :
  ∀ outs outIdx unspentTxs,
    unspent_outputs ∅ pubKeyHash tx txID outIdx outs unspentTxs
    = unspentTxs
      ++ replicate (length (filter (λ out, IsLockedWithKey out pubKeyHash = true) outs)) tx.
Proof.
  induction outs as [|out outs IH]; intros outIdx unspentTxs; simpl.
  - by rewrite app_nil_r.
  - rewrite is_spent_empty. destruct (IsLockedWithKey out pubKeyHash) eqn:Hl.
    + rewrite IH, filter_cons_True by done. simpl. by rewrite <- app_assoc.
    + rewrite IH, filter_cons_False; [done|]. by rewrite Hl.
Qed.

Lemma unspent_block_empty pubKeyHash :
  ∀ txns unspentTxs,
    unspent_block ∅ pubKeyHash txns unspentTxs = unspentTxs ++ emitted pubKeyHash txns.
Proof.
  unfold unspent_block, emitted.
  induction txns as [|tx txns IH]; intros unspentTxs; simpl.
  - by rewrite app_nil_r.
  - rewrite IH, unspent_outputs_empty. by rewrite <- app_assoc.
Qed.

Lemma emitted_app pubKeyHash txs1 txs2 :
  emitted pubKeyHash (txs1 ++ txs2) = emitted pubKeyHash txs1 ++ emitted pubKeyHash txs2.
Proof. unfold emitted. apply bind_app. Qed.

Lemma FindUnspentTransactions_loop_chain bc g pubKeyHash :
  PrevHash g = [] →
  ∀ body fuel h il idx unspentTxs,
    chain bc h (body ++ [g]) → Forall (λ b, BlockNum b ≠ 0 ∧ PrevHash b ≠ []) body →
    (length body < fuel)%nat →
    FindUnspentTransactions_loop fuel
      {| Iter_LastHash := il; CurrentHash := h; Index := idx |} ∅ pubKeyHash unspentTxs bc
    = Some (unspentTxs ++ emitted pubKeyHash (txns_of (body ++ [g])), bc).
Proof.
  intros Hg.
  induction body as [|b body IH]; intros fuel h il idx unspentTxs Hc Hbody Hfuel;
    (destruct fuel as [|fuel]; [simpl in Hfuel; lia|]); simpl.
  - apply chain_inv_last in Hc as [Hb Hn].
    unfold mbind, M_bind. rewrite Next_block_at. simpl. rewrite Hb.
    rewrite bool_decide_true by (by rewrite Hg).
    rewrite unspent_block_empty. unfold txns_of. simpl. by rewrite app_nil_r.
  - apply chain_inv_body in Hc as (Hb & Hn & Hc).
    apply Forall_cons in Hbody as [[_ Hprev] Hbody].
    unfold mbind, M_bind. rewrite Next_block_at. simpl. rewrite Hb.
    rewrite bool_decide_false by (by rewrite length_zero_nil).
    rewrite (IH fuel) by (done || simpl in Hfuel; lia).
    rewrite unspent_block_empty. unfold txns_of. simpl.
    by rewrite emitted_app, app_assoc.
Qed.

Lemma FindUnspentTransactions_chain bc pubKeyHash :
  WellFormed bc →
  ∃ bs, chain bc (LastHash bc) bs
    ∧ ∀ fuel, (length bs ≤ fuel)%nat →
        FindUnspentTransactions fuel pubKeyHash bc
        = Some (emitted pubKeyHash (txns_of bs), bc).
Proof.
  intros Hwf.
  destruct (WellFormed_chain _ _ Hwf (wf_tip _ Hwf)) as (body & Hc & Hbody & _).
  exists (body ++ [Genesis]). split; [done|].
  intros fuel Hfuel. rewrite length_app in Hfuel. simpl in Hfuel.
  unfold FindUnspentTransactions, NewIterator. unfold mbind, M_bind, getLastHash.
  rewrite (FindUnspentTransactions_loop_chain bc Genesis pubKeyHash
             Genesis_PrevHash body); [done|done|done|lia].
Qed.

Lemma occurrences_app tx l1 l2 :
  occurrences tx (l1 ++ l2) = (occurrences tx l1 + occurrences tx l2)%nat.
Proof. unfold occurrences. by rewrite filter_app, length_app. Qed.

Lemma occurrences_replicate tx x n :
  occurrences tx (replicate n x) = if decide (x = tx) then n else 0%nat.
Proof.
  unfold occurrences. induction n as [|n IH]; simpl.
  - by case_decide.
  - case_decide.
    + rewrite filter_cons_True by done. simpl. by rewrite IH.
    + by rewrite filter_cons_False.
Qed.

Lemma occurrences_cons tx x l :
  occurrences tx (x :: l)
  = ((if decide (x = tx) then 1 else 0) + occurrences tx l)%nat.
Proof.
  unfold occurrences. case_decide.
  - by rewrite filter_cons_True.
  - by rewrite filter_cons_False.
Qed.

Lemma occurrences_emitted pubKeyHash tx txs :
  occurrences tx (emitted pubKeyHash txs)
  = (occurrences tx txs * locked_count pubKeyHash tx)%nat.
Proof.
  induction txs as [|x txs IH]; [done|].
  change (emitted pubKeyHash (x :: txs))
    with (replicate (locked_count pubKeyHash x) x ++ emitted pubKeyHash txs).
  rewrite occurrences_app, occurrences_replicate, IH, occurrences_cons.
  case_decide; subst; lia.
Qed.

(** C10. In a well-formed state, [FindUnspentTransactions] returns the
    transactions of the current chain, tip first, each repeated once per
    output locked with the key: a transaction occurs in the result as many
    times as it has such outputs, for each of its occurrences in the chain. *)
Theorem FindUnspentTransactions_one_copy_per_output bc pubKeyHash :
  WellFormed bc →
  ∃ bs, chain bc (LastHash bc) bs
    ∧ ∀ fuel, (length bs ≤ fuel)%nat →
        ∃ unspentTxs,
          FindUnspentTransactions fuel pubKeyHash bc = Some (unspentTxs, bc)
          ∧ unspentTxs
            = txns_of bs ≫= (λ tx, replicate (locked_count pubKeyHash tx) tx)
          ∧ ∀ tx, occurrences tx unspentTxs
                  = (occurrences tx (txns_of bs) * locked_count pubKeyHash tx)%nat.
Proof.
  intros Hwf.
  destruct (FindUnspentTransactions_chain bc pubKeyHash Hwf) as (bs & Hc & Hrun).
  exists bs. split; [done|]. intros fuel Hfuel.
  exists (emitted pubKeyHash (txns_of bs)). split; [by apply Hrun|].
  split; [done|]. intros tx. apply occurrences_emitted.
Qed.

(** *** Spendable outputs *)

Lemma spend_outputs_consume pubKeyHash amount txID :
  ∀ outs outIdx accumulated unspentOuts,
    spend_outputs pubKeyHash amount txID outIdx outs accumulated unspentOuts
    = consume amount (locked_from pubKeyHash txID outIdx outs) accumulated unspentOuts.
Proof.
  induction outs as [|out outs IH]; intros outIdx accumulated unspentOuts; simpl; [done|].
  destruct (IsLockedWithKey out pubKeyHash); simpl.
  - case_bool_decide; [|apply IH]. case_bool_decide; [done|apply IH].
  - apply IH.
Qed.

Lemma consume_app amount outs1 outs2 :
  ∀ accumulated m,
    consume amount (outs1 ++ outs2) accumulated m
    = let r := consume amount outs1 accumulated m in
      if r.2 then r else consume amount outs2 r.1.1 r.1.2.
Proof.
  induction outs1 as [|o outs1 IH]; intros accumulated m; simpl; [done|].
  case_bool_decide; [|apply IH]. case_bool_decide; [done|apply IH].
Qed.

Lemma spend_txs_consume pubKeyHash amount :
  ∀ unspentTxs accumulated unspentOuts,
    spend_txs pubKeyHash amount unspentTxs accumulated unspentOuts
    = (consume amount (candidates pubKeyHash unspentTxs) accumulated unspentOuts).1.
Proof.
  induction unspentTxs as [|tx unspentTxs IH]; intros accumulated unspentOuts; [done|].
  change (candidates pubKeyHash (tx :: unspentTxs))
    with (locked_from pubKeyHash (EncodeToString (ID tx)) 0 (Outputs tx)
          ++ candidates pubKeyHash unspentTxs).
  rewrite consume_app. simpl. rewrite spend_outputs_consume.
  destruct (consume amount _ accumulated unspentOuts) as [[a m] [|]]; simpl; [done|].
  apply IH.
Qed.

Lemma consume_reached amount outs accumulated m :
  amount ≤ accumulated → consume amount outs accumulated m = (accumulated, m, false).
Proof.
  intros Hle. induction outs as [|o outs IH]; simpl; [done|].
  by rewrite bool_decide_false by lia.
Qed.

Lemma consume_prefix amount :
  ∀ outs accumulated m,
    ∃ n, (n ≤ length outs)%nat
      ∧ (consume amount outs accumulated m).1
        = (total accumulated (take n outs), recorded m (take n outs))
      ∧ (∀ j, (j < n)%nat → total accumulated (take j outs) < amount)
      ∧ (amount ≤ total accumulated (take n outs) ∨ n = length outs).
Proof.
  induction outs as [|o outs IH]; intros accumulated m.
  - exists 0%nat. simpl. repeat split; [lia|lia|by right].
  - simpl. case_bool_decide as Hlt.
    + case_bool_decide as Hge.
      * exists 1%nat. simpl. rewrite ?take_0. simpl.
        repeat split; [lia| |by left].
        intros j Hj. replace j with 0%nat by lia. done.
      * destruct (IH (int_add accumulated o.2)
                     (<[o.1.1 := default [] (m !! o.1.1) ++ [o.1.2]]> m))
          as (n & Hn & Heq & Hmin & Hend).
        exists (S n). simpl. repeat split; [lia|done| |].
        -- intros [|j] Hj; simpl; [done|]. apply Hmin. lia.
        -- destruct Hend as [?| ->]; [by left|by right].
    + rewrite consume_reached by lia. exists 0%nat. simpl.
      repeat split; [lia|lia|left; lia].
Qed.

Lemma indices_of_cons txID o outs :
  indices_of txID (o :: outs)
  = if decide (o.1.1 = txID) then o.1.2 :: indices_of txID outs
    else indices_of txID outs.
Proof.
  unfold indices_of. case_decide.
  - by rewrite filter_cons_True.
  - by rewrite filter_cons_False.
Qed.

Lemma recorded_lookup outs :
  ∀ (m : gmap string (list Z)) txID,
    recorded m outs !! txID
    = if decide (indices_of txID outs = []) then m !! txID
      else Some (default [] (m !! txID) ++ indices_of txID outs).
Proof.
  induction outs as [|o outs IH]; intros m txID; [done|].
  change (recorded m (o :: outs))
    with (recorded (<[o.1.1 := default [] (m !! o.1.1) ++ [o.1.2]]> m) outs).
  rewrite IH, indices_of_cons. destruct (decide (o.1.1 = txID)) as [Hk|Hk].
  - rewrite Hk, lookup_insert_eq. simpl.
    case_decide as Hnil; [by rewrite Hnil|]. by rewrite <- app_assoc.
  - by rewrite lookup_insert_ne.
Qed.

(** C8. In a well-formed state, [FindSpendableOutputs] consumes a prefix of
    the outputs locked with the key, taken in scan order from the list that
    [FindUnspentTransactions] returns: the shortest prefix whose accumulated
    value reaches the amount, or all of them when none does. It returns the
    accumulated value of that prefix and, for each transaction id, the
    indices of its outputs in the prefix. *)
Theorem FindSpendableOutputs_accumulates bc pubKeyHash amount :
  WellFormed bc →
  ∃ bs, chain bc (LastHash bc) bs
    ∧ ∀ fuel, (length bs ≤ fuel)%nat →
        ∃ unspentTxs accumulated unspentOuts n,
          FindUnspentTransactions fuel pubKeyHash bc = Some (unspentTxs, bc)
          ∧ FindSpendableOutputs fuel pubKeyHash amount bc
            = Some ((accumulated, unspentOuts), bc)
          ∧ (n ≤ length (candidates pubKeyHash unspentTxs))%nat
          ∧ accumulated = total 0 (take n (candidates pubKeyHash unspentTxs))
          ∧ (∀ txID,
               unspentOuts !! txID
               = let outs := indices_of txID (take n (candidates pubKeyHash unspentTxs)) in
                 if decide (outs = []) then None else Some outs)
          ∧ (∀ j, (j < n)%nat →
                  total 0 (take j (candidates pubKeyHash unspentTxs)) < amount)
          ∧ (amount ≤ accumulated ∨ n = length (candidates pubKeyHash unspentTxs)).
Proof.
  intros Hwf.
  destruct (FindUnspentTransactions_chain bc pubKeyHash Hwf) as (bs & Hc & Hrun).
  exists bs. split; [done|]. intros fuel Hfuel.
  set (unspentTxs := emitted pubKeyHash (txns_of bs)).
  destruct (consume_prefix amount (candidates pubKeyHash unspentTxs) 0 ∅)
    as (n & Hn & Heq & Hmin & Hend).
  exists unspentTxs, (total 0 (take n (candidates pubKeyHash unspentTxs))),
    (recorded ∅ (take n (candidates pubKeyHash unspentTxs))), n.
  split; [by apply Hrun|]. split.
  { unfold FindSpendableOutputs. unfold mbind, M_bind. rewrite (Hrun fuel Hfuel).
    fold unspentTxs. by rewrite spend_txs_consume, Heq. }
  repeat split; [done| |done|done].
  intros txID. simpl. rewrite recorded_lookup, lookup_empty. by case_decide.
Qed.

(** ** Further properties of the engine *)

(** *** Initialisation and resumption *)

Context `{!GobCodec}.

Lemma Init_run bc :
  Init bc
  = if decide (is_Some (DB bc !! LastHashKey))
    then Some (Some "blockchain has already been initialized"%string, bc)
    else Some (None,
               {| LastHash := Hash Genesis;
                  DB := <[LastHashKey := Raw (Hash Genesis)]>
                          (<[DBKeyForBlock (Hash Genesis) := Gob Genesis]> (DB bc)) |}).
Proof.
  unfold Init. msimpl. simpl. case_decide.
  - by rewrite bool_decide_true.
  - by rewrite bool_decide_false.
Qed.

(** X1. [Init] on a database that has a ["LastHash"] entry returns the
    error and changes nothing, so [Init] succeeds at most once: after a
    successful call every further call fails. *)
Theorem Init_once bc :
  (is_Some (DB bc !! LastHashKey) →
   Init bc = Some (Some "blockchain has already been initialized"%string, bc))
  ∧ (∀ bc', Init bc = Some (None, bc') →
       Init bc' = Some (Some "blockchain has already been initialized"%string, bc')).
Proof.
  split.
  - intros Hinit. rewrite Init_run. by rewrite decide_True.
  - intros bc'. rewrite !Init_run. case_decide; [done|]. intros [= <-]. simpl.
    rewrite decide_True; [done|]. rewrite lookup_insert_eq. eauto.
Qed.

(** X2. [Init] on a database without ["LastHash"] entry succeeds: the tip
    is the hash of the genesis block, the database holds the genesis block
    under its key and the tip under ["LastHash"], every other entry is
    kept, and [ResumeFromDB] reads the same tip back. *)
Theorem Init_effects bc :
  DB bc !! LastHashKey = None →
  ∃ bc', Init bc = Some (None, bc')
    ∧ LastHash bc' = Hash Genesis
    ∧ DB bc' !! LastHashKey = Some (Raw (Hash Genesis))
    ∧ block_at bc' (Hash Genesis) = Some Genesis
    ∧ (∀ key, key ≠ LastHashKey → key ≠ DBKeyForBlock (Hash Genesis) →
              DB bc' !! key = DB bc !! key)
    ∧ ResumeFromDB bc' = Some (None, bc').
Proof.
  intros Hfresh. eexists. rewrite Init_run.
  rewrite decide_False by (rewrite Hfresh; by intros [? ?]).
  split; [done|]. simpl. repeat split.
  - apply lookup_insert_eq.
  - unfold block_at. simpl.
    rewrite lookup_insert_ne by (intros Heq; by eapply DBKeyForBlock_LastHashKey).
    by rewrite lookup_insert_eq.
  - intros key Hk1 Hk2. by rewrite !lookup_insert_ne.
  - unfold ResumeFromDB. msimpl. simpl. by rewrite lookup_insert_eq.
Qed.

Lemma reachable_LastHash_entry bc :
  reachable bc → DB bc !! LastHashKey = Some (Raw (Hash Genesis)).
Proof.
  induction 1 as [bc HInit|bc block owned success bc' _ IH HPut].
  - apply Init_fresh in HInit as ->. simpl. apply lookup_insert_eq.
  - destruct (rejected_dec bc block owned) as [Hrej|Hrej].
    + rewrite Put_rejected in HPut by done. by injection HPut as <- <-.
    + rewrite Put_admitted in HPut by done. injection HPut as <- <-.
      unfold admitted. simpl. rewrite lookup_insert_ne; [done|].
      apply DBKeyForBlock_LastHashKey.
Qed.

(** X3. [Put] never writes the ["LastHash"] entry of the database: in every
    state reached by [Init] and calls of [Put] the entry still holds the
    hash of the genesis block, and [ResumeFromDB] sets the tip to it
    whatever blocks were admitted. *)
Theorem ResumeFromDB_after_Put bc :
  reachable bc →
  DB bc !! LastHashKey = Some (Raw (Hash Genesis))
  ∧ ResumeFromDB bc = Some (None, with_tip bc (Hash Genesis)).
Proof.
  intros Hentry%reachable_LastHash_entry. split; [done|].
  unfold ResumeFromDB. msimpl. by rewrite Hentry.
Qed.

(** *** The store is append-only *)

(** X4. [Put] keeps every entry of the database: whatever it returns, no
    block is removed or replaced. *)
Theorem Put_append_only bc block owned success bc' :
  Put block owned bc = Some (success, bc') → DB bc ⊆ DB bc'.
Proof.
  destruct (rejected_dec bc block owned) as [Hrej|Hrej].
  - rewrite Put_rejected by done. by intros [= <- <-].
  - rewrite Put_admitted by done. intros [= <- <-].
    apply admitted_extends. unfold rejected in Hrej. tauto.
Qed.


(** *** Chains in well-formed states *)

#[global] Instance DBKeyForBlock_Inj : Inj (=) (=) DBKeyForBlock.
Proof. intros h1 h2. apply DBKeyForBlock_inj. Qed.

Lemma chain_inv_cons bc h b bs :
  bs ≠ [] → chain bc h (b :: bs) →
  block_at bc h = Some b ∧ BlockNum b ≠ 0 ∧ chain bc (PrevHash b) bs.
Proof. intros Hne. inversion 1; subst; done. Qed.

Lemma chain_suffix bc :
  (∀ h b, block_at bc h = Some b → Hash b = h) →
  ∀ pre h b rest, chain bc h (pre ++ b :: rest) → chain bc (Hash b) (b :: rest).
Proof.
  intros Hkey. induction pre as [|p pre IH]; intros h b rest Hc; simpl in Hc.
  - apply chain_head in Hc as Hhead. destruct Hhead as (b0 & bs0 & Heq & Hb).
    injection Heq as <- <-. by rewrite (Hkey _ _ Hb).
  - apply chain_inv_cons in Hc as (_ & _ & Hc); [|by destruct pre]. by eapply IH.
Qed.

Lemma chain_NoDup bc h bs :
  (∀ h b, block_at bc h = Some b → Hash b = h) →
  chain bc h bs → NoDup (Hash <$> bs).
Proof.
  intros Hkey. induction 1 as [h b Hb Hn|h b bs Hb Hn Hc IH]; simpl.
  - apply NoDup_singleton.
  - apply NoDup_cons. split; [|done].
    intros (b' & Heq & Hin)%list_elem_of_fmap.
    apply list_elem_of_split in Hin as (mid & rest & ->).
    apply (chain_suffix _ Hkey) in Hc as Hs.
    rewrite <- Heq, (Hkey _ _ Hb) in Hs.
    assert (chain bc h (b :: mid ++ b' :: rest)) as Hfull by (by apply chain_parent).
    pose proof (chain_functional _ _ _ _ Hs Hfull) as Hlen.
    apply (f_equal length) in Hlen. simpl in Hlen. rewrite length_app in Hlen.
    simpl in Hlen. lia.
Qed.

Lemma chain_hashes_stored bc h bs :
  (∀ h b, block_at bc h = Some b → Hash b = h) →
  chain bc h bs → Forall (λ b, stored bc (Hash b)) bs.
Proof.
  intros Hkey Hc. eapply Forall_impl; [by eapply chain_blocks_stored|].
  intros b [h' Hb]. simpl. rewrite (Hkey _ _ Hb). by eapply block_at_stored.
Qed.

Lemma chain_length_bound bc h bs :
  (∀ h b, block_at bc h = Some b → Hash b = h) →
  chain bc h bs → (length bs ≤ size (DB bc))%nat.
Proof.
  intros Hkey Hc.
  pose proof (chain_NoDup _ _ _ Hkey Hc) as Hnd.
  pose proof (chain_hashes_stored _ _ _ Hkey Hc) as Hst.
  apply (NoDup_fmap_2 DBKeyForBlock) in Hnd.
  rewrite <- (length_fmap Hash), <- (length_fmap DBKeyForBlock).
  rewrite <- (size_list_to_set (C:=gset bytes)) by done.
  rewrite <- size_dom. apply subseteq_size.
  intros key Hin%elem_of_list_to_set.
  apply list_elem_of_fmap in Hin as (h' & -> & Hh').
  apply list_elem_of_fmap in Hh' as (b & -> & Hb).
  rewrite Forall_forall in Hst. apply elem_of_dom. by apply Hst.
Qed.

Lemma current_chain bc :
  WellFormed bc →
  ∃ body, chain bc (LastHash bc) (body ++ [Genesis])
          ∧ Forall (λ b, BlockNum b ≠ 0 ∧ PrevHash b ≠ []) body.
Proof.
  intros Hwf.
  destruct (WellFormed_chain _ _ Hwf (wf_tip _ Hwf)) as (body & Hc & Hbody & _).
  eauto.
Qed.

(** X6. In a state reached by [Init] and calls of [Put] the genesis block
    is stored under its hash, it is the only block of number 0, and the
    chain of every stored hash ends with it. *)
Theorem genesis_unique bc :
  reachable bc →
  block_at bc (Hash Genesis) = Some Genesis
  ∧ (∀ h b, block_at bc h = Some b → BlockNum b = 0 → h = Hash Genesis ∧ b = Genesis)
  ∧ (∀ h, stored bc h → ∃ body, chain bc h (body ++ [Genesis])).
Proof.
  intros Hwf%reachable_WellFormed. split; [|split].
  - destruct (WellFormed_chain _ _ Hwf (wf_tip _ Hwf)) as (body & _ & _ & Hst).
    apply Forall_app in Hst as [_ Hst]. rewrite Forall_singleton in Hst. exact Hst.
  - intros h b Hb Hn. pose proof (wf_genesis _ Hwf _ _ Hb Hn) as ->.
    split; [|done]. symmetry. by apply (wf_key _ Hwf).
  - intros h Hh. destruct (WellFormed_chain _ _ Hwf Hh) as (body & Hc & _). eauto.
Qed.

(** X7. In a well-formed state the chain of a stored hash visits no hash
    twice and has no more blocks than the database has entries. *)
Theorem chain_acyclic bc h :
  WellFormed bc → stored bc h →
  ∃ bs, chain bc h bs ∧ NoDup (Hash <$> bs) ∧ (length bs ≤ size (DB bc))%nat.
Proof.
  intros Hwf Hh. destruct (WellFormed_chain _ _ Hwf Hh) as (body & Hc & _).
  exists (body ++ [Genesis]). split; [done|]. split.
  - eapply chain_NoDup; [apply (wf_key _ Hwf)|done].
  - eapply chain_length_bound; [apply (wf_key _ Hwf)|done].
Qed.

(** *** The queries along the current chain *)

Lemma TxnStatus_chain bc txid bs :
  WellFormed bc → chain bc (LastHash bc) bs →
  ∀ fuel, (length bs ≤ fuel)%nat → Z.of_nat (length bs) < 2 ^ 63 →
          TxnStatus fuel txid bc = Some (depth_of txid bs, bc).
Proof.
  intros Hwf Hc fuel Hfuel Hmax.
  destruct (current_chain _ Hwf) as (body & Hc' & _).
  pose proof (chain_functional _ _ _ _ Hc Hc') as ->.
  rewrite length_app in Hfuel, Hmax. simpl in Hfuel, Hmax.
  destruct (TxnStatus_loop_chain bc Genesis txid body fuel (LastHash bc)
              (LastHash bc) (-1)) as (res & Hres & Hspec); [done|lia|lia|lia|].
  unfold TxnStatus, NewIterator. unfold mbind, M_bind, getLastHash. rewrite Hres.
  do 2 f_equal. unfold depth_of.
  assert (¬ contains Genesis txid) as Hg.
  { intros (txn & Htxn & _). rewrite Genesis_Txns in Htxn. by apply elem_of_nil in Htxn. }
  destruct Hspec as [[-> Hall]|(j & b & -> & Hj & Hin & Hmin)].
  - assert (list_find (λ b, contains b txid) (body ++ [Genesis]) = None) as ->; [|done].
    apply list_find_None, Forall_app. split; [done|]. by apply Forall_singleton.
  - assert (list_find (λ b, contains b txid) (body ++ [Genesis]) = Some (j, b)) as ->;
      [|lia].
    apply list_find_app_l, list_find_Some. repeat split; [done|done|].
    intros j' b' Hb' Hlt. by eapply Hmin.
Qed.

Lemma find_in_block_list_find txns id :
  find_in_block txns id = snd <$> list_find (λ tx, ID tx = id) txns.
Proof.
  induction txns as [|tx txns IH]; [done|]. simpl. case_bool_decide.
  - by rewrite decide_True.
  - rewrite decide_False by done. rewrite IH.
    by destruct (list_find _ txns) as [[? ?]|].
Qed.

Lemma find_in_block_app txns1 txns2 id :
  find_in_block (txns1 ++ txns2) id
  = match find_in_block txns1 id with
    | Some tx => Some tx
    | None => find_in_block txns2 id
    end.
Proof.
  induction txns1 as [|tx txns1 IH]; [done|]. simpl. by case_bool_decide.
Qed.

Lemma FindTransaction_loop_chain bc g id :
  PrevHash g = [] →
  ∀ body fuel h il idx,
    chain bc h (body ++ [g]) → Forall (λ b, BlockNum b ≠ 0 ∧ PrevHash b ≠ []) body →
    (length body < fuel)%nat →
    FindTransaction_loop fuel {| Iter_LastHash := il; CurrentHash := h; Index := idx |}
                         id bc
    = Some (match find_in_block (txns_of (body ++ [g])) id with
            | Some tx => (tx, None)
            | None => (Transaction_zero, Some "Transaction does not exist"%string)
            end, bc).
Proof.
  intros Hg.
  induction body as [|b body IH]; intros fuel h il idx Hc Hbody Hfuel;
    (destruct fuel as [|fuel]; [simpl in Hfuel; lia|]); simpl.
  - apply chain_inv_last in Hc as [Hb Hn].
    unfold mbind, M_bind. rewrite Next_block_at. simpl. rewrite Hb.
    unfold txns_of. simpl. rewrite app_nil_r.
    destruct (find_in_block (Txns g) id); [done|].
    by rewrite bool_decide_true by (by rewrite Hg).
  - apply chain_inv_body in Hc as (Hb & Hn & Hc).
    apply Forall_cons in Hbody as [[_ Hprev] Hbody].
    unfold mbind, M_bind. rewrite Next_block_at. simpl. rewrite Hb.
    change (txns_of (b :: body ++ [g])) with (Txns b ++ txns_of (body ++ [g])).
    rewrite find_in_block_app.
    destruct (find_in_block (Txns b) id); [done|].
    rewrite bool_decide_false by (by rewrite length_zero_nil).
    apply IH; [done|done|simpl in Hfuel; lia].
Qed.

Lemma FindTransaction_chain bc id bs :
  WellFormed bc → chain bc (LastHash bc) bs →
  ∀ fuel, (length bs ≤ fuel)%nat →
          FindTransaction fuel id bc
          = Some (match find_in_block (txns_of bs) id with
                  | Some tx => (tx, None)
                  | None => (Transaction_zero, Some "Transaction does not exist"%string)
                  end, bc).
Proof.
  intros Hwf Hc fuel Hfuel.
  destruct (current_chain _ Hwf) as (body & Hc' & Hbody).
  pose proof (chain_functional _ _ _ _ Hc Hc') as ->.
  rewrite length_app in Hfuel. simpl in Hfuel.
  unfold FindTransaction, NewIterator. unfold mbind, M_bind, getLastHash.
  apply FindTransaction_loop_chain; [apply Genesis_PrevHash|done|done|lia].
Qed.

Lemma FindUnspentTransactions_on_chain bc pubKeyHash bs :
  WellFormed bc → chain bc (LastHash bc) bs →
  ∀ fuel, (length bs ≤ fuel)%nat →
          FindUnspentTransactions fuel pubKeyHash bc
          = Some (emitted pubKeyHash (txns_of bs), bc).
Proof.
  intros Hwf Hc.
  destruct (FindUnspentTransactions_chain bc pubKeyHash Hwf) as (bs' & Hc' & Hrun).
  by pose proof (chain_functional _ _ _ _ Hc Hc') as ->.
Qed.

(** X8. In a well-formed state [FindTransaction] returns the first
    transaction with the id among those of the current chain, taken tip
    first, together with no error; when the chain has none it returns the
    empty transaction and the error. *)
Theorem FindTransaction_first bc id :
  WellFormed bc →
  ∃ bs, chain bc (LastHash bc) bs
    ∧ ∀ fuel, (length bs ≤ fuel)%nat →
        ∃ tx err, FindTransaction fuel id bc = Some ((tx, err), bc)
          ∧ ((err = None
              ∧ ∃ i, txns_of bs !! i = Some tx ∧ ID tx = id
                     ∧ ∀ j tx', (j < i)%nat → txns_of bs !! j = Some tx' → ID tx' ≠ id)
             ∨ (err = Some "Transaction does not exist"%string ∧ tx = Transaction_zero
                ∧ ∀ tx', tx' ∈ txns_of bs → ID tx' ≠ id)).
Proof.
  intros Hwf. destruct (current_chain _ Hwf) as (body & Hc & _).
  exists (body ++ [Genesis]). split; [done|]. intros fuel Hfuel.
  rewrite (FindTransaction_chain _ _ _ Hwf Hc) by done.
  rewrite find_in_block_list_find.
  destruct (list_find _ _) as [[i tx]|] eqn:Hfind; simpl.
  - exists tx, None. split; [done|]. left. split; [done|].
    apply list_find_Some in Hfind as (Hi & Hid & Hmin).
    exists i. repeat split; [done|done|]. intros j tx' Hlt Hj. by eapply Hmin.
  - eexists _, _. split; [done|]. right. repeat split.
    apply list_find_None in Hfind. rewrite Forall_forall in Hfind. exact Hfind.
Qed.

Lemma find_in_block_Some txns id tx :
  find_in_block txns id = Some tx → tx ∈ txns ∧ ID tx = id.
Proof.
  induction txns as [|x txns IH]; [done|]. simpl. case_bool_decide.
  - intros [= <-]. split; [apply elem_of_cons; by left|done].
  - intros [Hin Hid]%IH. split; [apply elem_of_cons; by right|done].
Qed.

Lemma find_in_block_None txns id :
  find_in_block txns id = None ↔ ¬ (∃ txn, txn ∈ txns ∧ ID txn = id).
Proof.
  induction txns as [|x txns IH]; simpl.
  - split; [|done]. intros _ (? & []%elem_of_nil & _).
  - case_bool_decide as Hx.
    + split; [done|]. intros Hno. destruct Hno. exists x.
      split; [apply elem_of_cons; by left|done].
    + rewrite IH. split.
      * intros Hno (txn & [->|Hin]%elem_of_cons & Hid); [done|]. apply Hno. eauto.
      * intros Hno (txn & Hin & Hid). apply Hno. exists txn.
        split; [apply elem_of_cons; by right|done].
Qed.

Lemma find_in_chain bs id :
  find_in_block (txns_of bs) id
  = match list_find (λ b, contains b id) bs with
    | Some (_, b) => find_in_block (Txns b) id
    | None => None
    end.
Proof.
  induction bs as [|b bs IH]; [done|].
  change (txns_of (b :: bs)) with (Txns b ++ txns_of bs).
  rewrite find_in_block_app. simpl. case_decide as Hb.
  - destruct (find_in_block (Txns b) id) eqn:Hfind; [done|].
    by apply find_in_block_None in Hfind.
  - assert (find_in_block (Txns b) id = None) as -> by (by apply find_in_block_None).
    rewrite IH. by destruct (list_find _ bs) as [[? ?]|].
Qed.

(** X9. In a well-formed state [TxnStatus] and [FindTransaction] agree:
    the status is -1 exactly when [FindTransaction] returns the error, and
    otherwise the transaction found has the id and lies in the block at the
    depth that [TxnStatus] returns. *)
Theorem TxnStatus_FindTransaction_agree bc id :
  WellFormed bc →
  ∃ bs, chain bc (LastHash bc) bs
    ∧ ∀ fuel, (length bs ≤ fuel)%nat → Z.of_nat (length bs) < 2 ^ 63 →
        ∃ k tx err,
          TxnStatus fuel id bc = Some (k, bc)
          ∧ FindTransaction fuel id bc = Some ((tx, err), bc)
          ∧ (k = -1 ↔ err ≠ None)
          ∧ (err = None →
             ∃ b, bs !! Z.to_nat k = Some b ∧ tx ∈ Txns b ∧ ID tx = id).
Proof.
  intros Hwf. destruct (current_chain _ Hwf) as (body & Hc & _).
  exists (body ++ [Genesis]). split; [done|]. intros fuel Hfuel Hmax.
  rewrite (TxnStatus_chain _ _ _ Hwf Hc) by done.
  rewrite (FindTransaction_chain _ _ _ Hwf Hc) by done.
  rewrite find_in_chain. unfold depth_of.
  destruct (list_find _ _) as [[j b]|] eqn:Hfind.
  - apply list_find_Some in Hfind as (Hj & Hb & _).
    destruct (find_in_block (Txns b) id) as [tx|] eqn:Htx.
    + apply find_in_block_Some in Htx as [Hin Hid].
      exists (Z.of_nat j), tx, None. repeat split; [lia|done|].
      intros _. exists b. by rewrite Nat2Z.id.
    + by apply find_in_block_None in Htx.
  - eexists (-1), _, _. repeat split; done.
Qed.

(** *** Admission and the current chain *)

Lemma admitted_chain bc block owned bs :
  ¬ rejected bc block owned → chain bc (PrevHash block) bs →
  chain (admitted bc block) (Hash block) (block :: bs).
Proof.
  intros Hrej Hc. unfold rejected in Hrej. apply chain_parent.
  - rewrite block_at_admitted. by rewrite decide_True.
  - tauto.
  - eapply chain_extend; [|done]. apply admitted_extends. tauto.
Qed.

Lemma Put_chain bc block owned bc' bs :
  Put block owned bc = Some (true, bc') → chain bc (LastHash bc) bs →
  (PrevHash block = LastHash bc → chain bc' (LastHash bc') (block :: bs))
  ∧ (PrevHash block ≠ LastHash bc → chain bc' (LastHash bc') bs).
Proof.
  destruct (rejected_dec bc block owned) as [Hrej|Hrej].
  { by rewrite Put_rejected. }
  rewrite Put_admitted by done. intros [= <-] Hc. split; intros Hprev.
  - unfold admitted at 2. simpl. rewrite bool_decide_true by done.
    eapply admitted_chain; [done|]. by rewrite Hprev.
  - unfold admitted at 2. simpl. rewrite bool_decide_false by done.
    eapply chain_extend; [|done]. apply admitted_extends.
    unfold rejected in Hrej. tauto.
Qed.

(** X10. When [Put] admits a block on top of the tip, the current chain
    grows by that block; when it admits a block elsewhere, the current
    chain stays as it is. *)
Theorem Put_current_chain bc block owned bc' bs :
  Put block owned bc = Some (true, bc') → chain bc (LastHash bc) bs →
  (PrevHash block = LastHash bc → chain bc' (LastHash bc') (block :: bs))
  ∧ (PrevHash block ≠ LastHash bc → chain bc' (LastHash bc') bs).
Proof. apply Put_chain. Qed.

(** X11. In a well-formed state, a block admitted on top of the tip gives
    its own transactions the status 0 and moves every other confirmed
    transaction one block deeper; a transaction that is in neither keeps the
    status -1. *)
Theorem TxnStatus_after_Put bc block owned bc' txid :
  WellFormed bc → Put block owned bc = Some (true, bc') →
  PrevHash block = LastHash bc →
  ∃ bs, chain bc (LastHash bc) bs
    ∧ ∀ fuel, (length bs < fuel)%nat → Z.of_nat (length bs) + 1 < 2 ^ 63 →
        ∃ k k', TxnStatus fuel txid bc = Some (k, bc)
          ∧ TxnStatus fuel txid bc' = Some (k', bc')
          ∧ (contains block txid → k' = 0)
          ∧ (¬ contains block txid → k = -1 → k' = -1)
          ∧ (¬ contains block txid → k ≠ -1 → k' = k + 1).
Proof.
  intros Hwf HPut Hprev. destruct (current_chain _ Hwf) as (body & Hc & _).
  exists (body ++ [Genesis]). split; [done|]. intros fuel Hfuel Hmax.
  pose proof (Put_WellFormed _ _ _ _ _ Hwf HPut) as Hwf'.
  destruct (Put_chain _ _ _ _ _ HPut Hc) as [Hc' _]. specialize (Hc' Hprev).
  rewrite (TxnStatus_chain _ _ _ Hwf Hc) by lia.
  rewrite (TxnStatus_chain _ _ _ Hwf' Hc') by (simpl; lia).
  eexists _, _. split; [done|]. split; [done|].
  unfold depth_of. simpl. case_decide as Hb.
  - repeat split; done.
  - destruct (list_find _ _) as [[j b]|]; simpl; repeat split; try done; lia.
Qed.

(** X12. In a well-formed state, a block admitted beside the current chain
    changes no answer of the queries: [TxnStatus], [FindTransaction],
    [FindUnspentTransactions] and [FindSpendableOutputs] return what they
    returned before. *)
Theorem side_branch_frame bc block owned bc' :
  WellFormed bc → Put block owned bc = Some (true, bc') →
  PrevHash block ≠ LastHash bc →
  LastHash bc' = LastHash bc
  ∧ ∃ bs, chain bc (LastHash bc) bs
      ∧ ∀ fuel, (length bs ≤ fuel)%nat → Z.of_nat (length bs) < 2 ^ 63 →
          ∀ txid pubKeyHash amount,
            is_Some (TxnStatus fuel txid bc)
            ∧ fst <$> TxnStatus fuel txid bc' = fst <$> TxnStatus fuel txid bc
            ∧ fst <$> FindTransaction fuel txid bc' = fst <$> FindTransaction fuel txid bc
            ∧ fst <$> FindUnspentTransactions fuel pubKeyHash bc'
              = fst <$> FindUnspentTransactions fuel pubKeyHash bc
            ∧ fst <$> FindSpendableOutputs fuel pubKeyHash amount bc'
              = fst <$> FindSpendableOutputs fuel pubKeyHash amount bc.
Proof.
  intros Hwf HPut Hprev. destruct (current_chain _ Hwf) as (body & Hc & _).
  pose proof (Put_WellFormed _ _ _ _ _ Hwf HPut) as Hwf'.
  destruct (Put_chain _ _ _ _ _ HPut Hc) as [_ Hc']. specialize (Hc' Hprev).
  assert (LastHash bc' = LastHash bc) as Htip.
  { destruct (rejected_dec bc block owned) as [Hrej|Hrej].
    - by rewrite Put_rejected in HPut.
    - rewrite Put_admitted in HPut by done. injection HPut as <-.
      unfold admitted. simpl. by rewrite bool_decide_false. }
  split; [done|]. exists (body ++ [Genesis]). split; [done|].
  intros fuel Hfuel Hmax txid pubKeyHash amount. rewrite Htip in Hc'.
  assert (chain bc' (LastHash bc') (body ++ [Genesis])) as Hc'' by (by rewrite Htip).
  rewrite (TxnStatus_chain _ _ _ Hwf Hc), (TxnStatus_chain _ _ _ Hwf' Hc'') by done.
  rewrite (FindTransaction_chain _ _ _ Hwf Hc),
    (FindTransaction_chain _ _ _ Hwf' Hc'') by done.
  unfold FindSpendableOutputs. unfold mbind, M_bind.
  rewrite (FindUnspentTransactions_on_chain _ _ _ Hwf Hc),
    (FindUnspentTransactions_on_chain _ _ _ Hwf' Hc'') by done.
  repeat split; eauto.
Qed.

(** *** The queries leave the state alone *)

Lemma read_only_TxnStatus_loop fuel :
  ∀ iter txid res, read_only (TxnStatus_loop fuel iter txid res).
Proof.
  induction fuel as [|fuel IH]; intros iter txid res; simpl.
  - apply read_only_fatal.
  - apply read_only_bind; [apply read_only_Next|].
    intros [[block end_] iter']. destruct end_; [apply read_only_ret|].
    case_bool_decide; [apply read_only_ret|apply IH].
Qed.

Lemma read_only_FindTransaction_loop fuel :
  ∀ iter id, read_only (FindTransaction_loop fuel iter id).
Proof.
  induction fuel as [|fuel IH]; intros iter id; simpl.
  - apply read_only_fatal.
  - apply read_only_bind; [apply read_only_Next|].
    intros [[block end_] iter']. destruct (find_in_block _ _); [apply read_only_ret|].
    case_bool_decide; [apply read_only_ret|apply IH].
Qed.

Lemma read_only_FindUnspentTransactions_loop fuel :
  ∀ iter spentTXOs pubKeyHash unspentTxs,
    read_only (FindUnspentTransactions_loop fuel iter spentTXOs pubKeyHash unspentTxs).
Proof.
  induction fuel as [|fuel IH]; intros iter spentTXOs pubKeyHash unspentTxs; simpl.
  - apply read_only_fatal.
  - apply read_only_bind; [apply read_only_Next|].
    intros [[block end_] iter']. case_bool_decide; [apply read_only_ret|apply IH].
Qed.

(** X13. The queries never modify the tip or the database: whenever
    [TxnStatus], [FindTransaction], [FindUnspentTransactions] or
    [FindSpendableOutputs] returns, in any state, the state is unchanged. *)
Theorem queries_read_only fuel id pubKeyHash amount :
  read_only (TxnStatus fuel id)
  ∧ read_only (FindTransaction fuel id)
  ∧ read_only (FindUnspentTransactions fuel pubKeyHash)
  ∧ read_only (FindSpendableOutputs fuel pubKeyHash amount).
Proof.
  assert (read_only (FindUnspentTransactions fuel pubKeyHash)) as Hunspent.
  { apply read_only_bind; [apply read_only_getLastHash|]. intros lastHash.
    apply read_only_FindUnspentTransactions_loop. }
  repeat split; [| |done|].
  - apply read_only_bind; [apply read_only_getLastHash|]. intros lastHash.
    apply read_only_TxnStatus_loop.
  - apply read_only_bind; [apply read_only_getLastHash|]. intros lastHash.
    apply read_only_FindTransaction_loop.
  - apply read_only_bind; [done|]. intros unspentTxs. apply read_only_ret.
Qed.

(** *** Fork reconciliation, continued *)

Lemma CheckoutFork_chains bc newTip bodyNew bodyOld :
  WellFormed bc → newTip ≠ LastHash bc →
  chain bc newTip (bodyNew ++ [Genesis]) →
  chain bc (LastHash bc) (bodyOld ++ [Genesis]) →
  ∀ fuel, (length bodyNew < fuel)%nat → (length bodyOld < fuel)%nat →
    CheckoutFork fuel newTip bc
    = let hashesNew := reverse (Hash <$> bodyNew) in
      let hashesOld := reverse (Hash <$> bodyOld) in
      let i := first_different (length hashesNew `min` length hashesOld)%nat 0
                 hashesNew hashesOld in
      Some ((txns_of (drop i (reverse bodyNew)), txns_of (drop i (reverse bodyOld))), bc).
Proof.
  intros Hwf Hne HcN HcO fuel HfN HfO.
  assert (∀ h bs, chain bc h bs → Forall (λ b, block_at bc (Hash b) = Some b) bs) as Hat.
  { intros h bs Hc. eapply Forall_impl; [by eapply chain_blocks_stored|].
    intros b [h' Hb]. simpl. by rewrite (wf_key _ Hwf _ _ Hb). }
  pose proof (Hat _ _ HcN) as [HstN _]%Forall_app.
  pose proof (Hat _ _ HcO) as [HstO _]%Forall_app.
  unfold CheckoutFork, NewIterator. unfold mbind, M_bind, getLastHash.
  rewrite bool_decide_false by done.
  rewrite (collect_hashes_chain _ Genesis bodyNew) by done.
  rewrite (collect_hashes_chain _ Genesis bodyOld) by done.
  rewrite !app_nil_r. cbv zeta.
  rewrite <- !fmap_reverse, <- !fmap_drop.
  rewrite collect_txns_blocks by (by apply Forall_drop, Forall_reverse).
  rewrite collect_txns_blocks by (by apply Forall_drop, Forall_reverse).
  done.
Qed.

Lemma first_different_prefix (l1 l2 : list bytes) :
  l1 `prefix_of` l2 ∨ l2 `prefix_of` l1 →
  first_different (length l1 `min` length l2)%nat 0 l1 l2
  = (length l1 `min` length l2)%nat.
Proof.
  intros Hpre. eapply first_divergence_unique.
  - apply first_different_divergence; [lia|done].
  - unfold first_divergence.
    destruct Hpre as [[k ->]|[k ->]]; rewrite length_app.
    + replace (length l1 `min` (length l1 + length k))%nat with (length l1) by lia.
      rewrite take_app_length, firstn_all. repeat split; [lia|lia|by left].
    + replace ((length l2 + length k) `min` length l2)%nat with (length l2) by lia.
      rewrite take_app_length, firstn_all. repeat split; [lia|lia|]. right. by left.
Qed.

(** X14. In a well-formed state, when the candidate tip lies on the current
    chain below the tip, [CheckoutFork] adds nothing and removes the
    transactions of the blocks above it; when the candidate chain runs
    through the current tip, it removes nothing and adds the transactions
    of the blocks above the tip. Both are in chain order. *)
Theorem CheckoutFork_same_chain bc newTip above rest :
  WellFormed bc → above ≠ [] →
  (chain bc (LastHash bc) (above ++ rest) → chain bc newTip rest →
   ∀ fuel, (length (above ++ rest) ≤ fuel)%nat →
     CheckoutFork fuel newTip bc = Some (([], txns_of (reverse above)), bc))
  ∧ (chain bc newTip (above ++ rest) → chain bc (LastHash bc) rest →
     ∀ fuel, (length (above ++ rest) ≤ fuel)%nat →
       CheckoutFork fuel newTip bc = Some ((txns_of (reverse above), []), bc)).
Proof.
  intros Hwf Habove.
  assert (∀ h h' bs, chain bc h (above ++ bs) → chain bc h' bs → h ≠ h') as Hdiff.
  { intros h h' bs Hc Hc' <-. pose proof (chain_functional _ _ _ _ Hc Hc') as Heq.
    apply (f_equal length) in Heq. rewrite length_app in Heq.
    destruct above; [done|simpl in Heq; lia]. }
  assert (∀ h bs, stored bc h → chain bc h bs →
                  ∃ body, bs = body ++ [Genesis]) as Hend.
  { intros h bs Hh Hc. destruct (WellFormed_chain _ _ Hwf Hh) as (body & Hc' & _).
    exists body. by eapply chain_functional. }
  assert (∀ h bs, chain bc h bs → stored bc h) as Hst.
  { intros h bs Hc. apply chain_head in Hc as (b & ? & _ & Hb).
    by eapply block_at_stored. }
  split; intros Hlong Hshort fuel Hfuel.
  - destruct (Hend _ _ (Hst _ _ Hshort) Hshort) as (body & ->).
    pose proof (Hdiff _ _ _ Hlong Hshort) as Hne.
    rewrite app_assoc in Hlong. rewrite !length_app in Hfuel. simpl in Hfuel.
    rewrite (CheckoutFork_chains bc newTip body (above ++ body) Hwf (not_eq_sym Hne)
               Hshort Hlong) by (rewrite ?length_app; lia).
    cbv zeta. rewrite first_different_prefix.
    + rewrite !length_reverse, !length_fmap, length_app.
      replace (length body `min` (length above + length body))%nat
        with (length body) by lia.
      rewrite reverse_app. rewrite <- (length_reverse body).
      by rewrite drop_all, drop_app_length.
    + left. rewrite fmap_app, reverse_app. by eexists.
  - destruct (Hend _ _ (Hst _ _ Hshort) Hshort) as (body & ->).
    pose proof (Hdiff _ _ _ Hlong Hshort) as Hne.
    rewrite app_assoc in Hlong. rewrite !length_app in Hfuel. simpl in Hfuel.
    rewrite (CheckoutFork_chains bc newTip (above ++ body) body Hwf Hne
               Hlong Hshort) by (rewrite ?length_app; lia).
    cbv zeta. rewrite first_different_prefix.
    + rewrite !length_reverse, !length_fmap, length_app.
      replace ((length above + length body) `min` length body)%nat
        with (length body) by lia.
      rewrite reverse_app. rewrite <- (length_reverse body).
      by rewrite drop_all, drop_app_length.
    + right. rewrite fmap_app, reverse_app. by eexists.
Qed.

Lemma block_at_with_tip bc hash h : block_at (with_tip bc hash) h = block_at bc h.
Proof. done. Qed.

Lemma collect_hashes_with_tip bc hash fuel :
  ∀ iter blockHashes,
    collect_hashes fuel iter blockHashes (with_tip bc hash)
    = prod_map id (λ _, with_tip bc hash) <$> collect_hashes fuel iter blockHashes bc.
Proof.
  induction fuel as [|fuel IH]; intros iter blockHashes; simpl; [done|].
  unfold mbind, M_bind. rewrite !Next_block_at, block_at_with_tip.
  destruct (block_at bc (CurrentHash iter)) as [block|]; [|done].
  case_bool_decide; [done|]. apply IH.
Qed.

Lemma collect_txns_with_tip bc hash hashes :
  ∀ txns,
    collect_txns hashes txns (with_tip bc hash)
    = prod_map id (λ _, with_tip bc hash) <$> collect_txns hashes txns bc.
Proof.
  induction hashes as [|h hashes IH]; intros txns; simpl; [done|].
  unfold mbind, M_bind. rewrite !Get_block_at, block_at_with_tip.
  destruct (block_at bc h) as [block|]; [|done]. apply IH.
Qed.

Lemma first_different_sym (l1 l2 : list bytes) :
  ∀ n i, first_different n i l1 l2 = first_different n i l2 l1.
Proof.
  induction n as [|n IH]; intros i; simpl; [done|].
  rewrite IH. by repeat case_bool_decide.
Qed.

(** X15. [CheckoutFork] is symmetric: if from the tip [A] it returns
    [(added, removed)] for the candidate [B], then once the caller has made
    [B] the tip it returns [(removed, added)] for the candidate [A]. This
    holds in every state. *)
Theorem CheckoutFork_symmetric fuel newTip bc added removed bc' :
  CheckoutFork fuel newTip bc = Some ((added, removed), bc') →
  CheckoutFork fuel (LastHash bc) (with_tip bc newTip)
  = Some ((removed, added), with_tip bc newTip).
Proof.
  unfold CheckoutFork, NewIterator. unfold mbind, M_bind, getLastHash. simpl.
  case_bool_decide as Heq.
  - intros [= <- <- <-]. by rewrite bool_decide_true.
  - rewrite bool_decide_false by done.
    destruct (collect_hashes fuel _ [] bc) as [[hashesNew bc1]|] eqn:HN; [|done].
    apply read_only_collect_hashes in HN as Hbc1. subst bc1.
    destruct (collect_hashes fuel {| Iter_LastHash := LastHash bc |} [] bc)
      as [[hashesOld bc1]|] eqn:HO; [|done].
    apply read_only_collect_hashes in HO as Hbc1. subst bc1.
    destruct (collect_txns (drop _ hashesNew) [] bc) as [[newTxns bc1]|] eqn:HtN; [|done].
    apply read_only_collect_txns in HtN as Hbc1. subst bc1.
    destruct (collect_txns (drop _ hashesOld) [] bc) as [[oldTxns bc1]|] eqn:HtO; [|done].
    apply read_only_collect_txns in HtO as Hbc1. subst bc1.
    intros [= <- <- <-].
    rewrite collect_hashes_with_tip, HO. simpl.
    rewrite collect_hashes_with_tip, HN. simpl.
    rewrite (first_different_sym hashesOld hashesNew), (Nat.min_comm (length hashesOld)).
    rewrite collect_txns_with_tip, HtO. simpl.
    by rewrite collect_txns_with_tip, HtN.
Qed.

(** X16. In a well-formed state whose database has fewer than 2^63
    entries, the number of entries of the database is fuel enough: with it
    every query returns, and so does [CheckoutFork] for every stored tip. *)
Theorem queries_return bc txid pubKeyHash amount newTip :
  WellFormed bc → Z.of_nat (size (DB bc)) < 2 ^ 63 → stored bc newTip →
  let fuel := size (DB bc) in
  is_Some (TxnStatus fuel txid bc)
  ∧ is_Some (FindTransaction fuel txid bc)
  ∧ is_Some (FindUnspentTransactions fuel pubKeyHash bc)
  ∧ is_Some (FindSpendableOutputs fuel pubKeyHash amount bc)
  ∧ is_Some (CheckoutFork fuel newTip bc).
Proof.
  intros Hwf Hmax Hnew fuel.
  destruct (WellFormed_chain _ _ Hwf (wf_tip _ Hwf)) as (body & Hc & _).
  destruct (WellFormed_chain _ _ Hwf Hnew) as (bodyN & HcN & _).
  pose proof (chain_length_bound _ _ _ (wf_key _ Hwf) Hc) as Hlen.
  pose proof (chain_length_bound _ _ _ (wf_key _ Hwf) HcN) as HlenN.
  rewrite (TxnStatus_chain _ _ _ Hwf Hc) by (done || lia).
  rewrite (FindTransaction_chain _ _ _ Hwf Hc) by done.
  unfold FindSpendableOutputs. unfold mbind, M_bind.
  rewrite (FindUnspentTransactions_on_chain _ _ _ Hwf Hc) by done.
  repeat split; eauto.
  destruct (decide (newTip = LastHash bc)) as [->|Hne].
  - unfold CheckoutFork. unfold mbind, M_bind, getLastHash.
    rewrite bool_decide_true by done. eauto.
  - rewrite length_app in Hlen, HlenN. simpl in Hlen, HlenN.
    rewrite (CheckoutFork_chains bc newTip bodyN body) by (done || (unfold fuel; lia)).
    eauto.
Qed.

(** *** Snapshots *)

Lemma block_at_Gob bc h b :
  block_at bc h = Some b ↔ DB bc !! DBKeyForBlock h = Some (Gob b).
Proof.
  unfold block_at. destruct (DB bc !! DBKeyForBlock h) as [[bs|b']|]; simpl;
    split; intros Heq; by simplify_eq.
Qed.

Lemma PutMulti_lookup_last (l : list (bytes * DBValue)) (m : gmap bytes DBValue) k v :
  (∀ v', (k, v') ∈ l → v' = v) → (k, v) ∈ l →
  foldl (λ m kv, <[kv.1 := kv.2]> m) m l !! k = Some v.
Proof.
  induction l as [|[k' v'] l IH] using rev_ind; intros Hfun Hin.
  - by apply elem_of_nil in Hin.
  - rewrite foldl_app. simpl. destruct (decide (k' = k)) as [->|Hk].
    + rewrite lookup_insert_eq. f_equal. apply Hfun, elem_of_app. right.
      by apply list_elem_of_singleton.
    + rewrite lookup_insert_ne by done. apply IH.
      * intros v'' Hv''. apply Hfun, elem_of_app. by left.
      * apply elem_of_app in Hin as [Hin|Hin]; [done|].
        apply list_elem_of_singleton in Hin. by simplify_eq.
Qed.

Lemma PutMulti_lookup_other (l : list (bytes * DBValue)) (m : gmap bytes DBValue) k :
  k ∉ l.*1 → foldl (λ m kv, <[kv.1 := kv.2]> m) m l !! k = m !! k.
Proof.
  revert m. induction l as [|[k' v'] l IH]; intros m Hk; [done|]. simpl.
  rewrite IH.
  - rewrite lookup_insert_ne; [done|]. intros ->. apply Hk. simpl. apply elem_of_cons. by left.
  - intros Hin. apply Hk. simpl. apply elem_of_cons. by right.
Qed.

Lemma block_keys_decoded blocks :
  Forall (λ data, is_Some (DecodeToBlock data)) blocks →
  ∀ keys bc, block_keys blocks keys bc = Some (keys ++ (entry_key <$> blocks), bc).
Proof.
  induction 1 as [|data blocks [block Hd] _ IH]; intros keys bc; simpl.
  - by rewrite app_nil_r.
  - rewrite Hd, IH. unfold entry_key at 2. rewrite Hd. by rewrite <- app_assoc.
Qed.


Lemma zip_entry_keys (blocks : list DBValue) :
  zip (entry_key <$> blocks) blocks = (λ data, (entry_key data, data)) <$> blocks.
Proof. induction blocks as [|data blocks IH]; [done|]. simpl. f_equal. apply IH. Qed.

Lemma ResumeFromEncodedData_run blocks lastHash bc :
  Forall (λ data, is_Some (DecodeToBlock data)) blocks →
  ResumeFromEncodedData blocks lastHash bc
  = Some (None,
          {| LastHash := lastHash;
             DB := <[LastHashKey := Raw lastHash]>
                     (foldl (λ m kv, <[kv.1 := kv.2]> m) (DB bc)
                            ((λ data, (entry_key data, data)) <$> blocks)) |}).
Proof.
  intros Hdec. unfold ResumeFromEncodedData. unfold mbind, M_bind.
  rewrite block_keys_decoded by done. simpl.
  unfold db_PutMulti, setLastHash, ret, mret, M_ret. simpl.
  rewrite zip_with_app by (by rewrite length_fmap).
  change (zip_with pair (entry_key <$> blocks) blocks) with (zip (entry_key <$> blocks) blocks).
  rewrite zip_entry_keys, foldl_app. done.
Qed.


Lemma Encode_blocks bc data :
  WellFormed bc →
  data ∈ (map_to_list (filter (λ kv, bytes_of BlockKeyPrefix `prefix_of` kv.1) (DB bc))).*2
  ↔ ∃ b, data = Gob b ∧ block_at bc (Hash b) = Some b.
Proof.
  intros Hwf. rewrite list_elem_of_fmap. split.
  - intros ([key v] & -> & Hin). simpl.
    apply elem_of_map_to_list, map_lookup_filter_Some in Hin as [Hv [h Hkey]].
    simpl in Hkey. subst key. fold (DBKeyForBlock h) in Hv.
    destruct (wf_decodes _ Hwf h) as [b Hb]; [by eexists|].
    pose proof (wf_key _ Hwf _ _ Hb) as <-.
    exists b. split; [|done]. apply block_at_Gob in Hb.
    unfold DBKeyForBlock in Hb. cbn in Hb, Hv. congruence.
  - intros (b & -> & Hb). exists (DBKeyForBlock (Hash b), Gob b). split; [done|].
    apply elem_of_map_to_list, map_lookup_filter_Some. split.
    + by apply block_at_Gob.
    + simpl. by eexists.
Qed.

Lemma chain_block_at_ext bc bc' h bs :
  (∀ h, block_at bc' h = block_at bc h) → chain bc h bs → chain bc' h bs.
Proof.
  intros Hext. induction 1.
  - apply chain_genesis; [by rewrite Hext|done].
  - apply chain_parent; [by rewrite Hext|done|done].
Qed.

Lemma WellFormed_ext bc bc' :
  (∀ h, block_at bc' h = block_at bc h) → (∀ h, stored bc' h ↔ stored bc h) →
  LastHash bc' = LastHash bc → WellFormed bc → WellFormed bc'.
Proof.
  intros Hat Hst Htip Hwf. split.
  - rewrite Htip. apply Hst, (wf_tip _ Hwf).
  - intros h Hh. rewrite Hat. by apply (wf_decodes _ Hwf), Hst.
  - intros h b. rewrite Hat. apply (wf_key _ Hwf).
  - intros h b. rewrite Hat. intros Hb. destruct (wf_chain _ Hwf _ _ Hb) as [bs Hbs].
    exists bs. by eapply chain_block_at_ext.
  - intros h b. rewrite Hat. apply (wf_genesis _ Hwf).
  - intros h b. rewrite Hat. apply (wf_parent _ Hwf).
Qed.

(** X18. A snapshot restores the chain: in a well-formed state [Encode]
    returns the stored blocks and the tip, and [ResumeFromEncodedData] on
    these blocks, in whatever order, from an empty database yields a
    well-formed state with the same tip and the same block under every
    hash, and with the tip under ["LastHash"]. *)
Theorem Encode_ResumeFromEncodedData bc :
  WellFormed bc →
  ∃ blocks, BlockChain_Encode bc = Some ((blocks, LastHash bc), bc)
    ∧ ∀ blocks', blocks' ≡ₚ blocks →
        ∃ bc', ResumeFromEncodedData blocks' (LastHash bc) (NewBlockChain ∅)
               = Some (None, bc')
          ∧ LastHash bc' = LastHash bc
          ∧ (∀ h, block_at bc' h = block_at bc h)
          ∧ DB bc' !! LastHashKey = Some (Raw (LastHash bc))
          ∧ WellFormed bc'.
Proof.
  intros Hwf. eexists. split; [reflexivity|]. intros blocks' Hperm.
  assert (∀ data, data ∈ blocks' ↔ ∃ b, data = Gob b ∧ block_at bc (Hash b) = Some b)
    as Hin.
  { intros data. rewrite Hperm. by apply Encode_blocks. }
  assert (Forall (λ data, is_Some (DecodeToBlock data)) blocks') as Hdec.
  { apply Forall_forall. intros data (b & -> & _)%Hin. by eexists. }
  eexists. rewrite ResumeFromEncodedData_run by done. split; [done|]. simpl.
  set (bc' := {| LastHash := LastHash bc; DB := _ |}).
  assert (∀ h, block_at bc' h = block_at bc h) as Hat.
  { intros h. unfold block_at at 1. simpl.
    rewrite lookup_insert_ne by (intros Heq; by eapply DBKeyForBlock_LastHashKey).
    destruct (block_at bc h) as [b|] eqn:Hb.
    - pose proof (wf_key _ Hwf _ _ Hb) as <-.
      rewrite (PutMulti_lookup_last _ _ _ (Gob b)); [done| |].
      + intros v' (data & [= Hk ->] & (b' & -> & Hb')%Hin)%list_elem_of_fmap.
        unfold entry_key in Hk. simpl in Hk. apply DBKeyForBlock_inj in Hk.
        rewrite Hk in Hb. by simplify_eq.
      + apply list_elem_of_fmap. exists (Gob b). split; [done|]. apply Hin. eauto.
    - rewrite PutMulti_lookup_other; [by rewrite lookup_empty|].
      rewrite <- list_fmap_compose.
      intros (data & Hk & (b & -> & Hb')%Hin)%list_elem_of_fmap.
      simpl in Hk. unfold entry_key in Hk. simpl in Hk. apply DBKeyForBlock_inj in Hk.
      rewrite Hk in Hb. by simplify_eq. }
  assert (∀ h, stored bc' h ↔ stored bc h) as Hst.
  { intros h. split.
    - intros [v Hv]. unfold bc' in Hv. simpl in Hv.
      rewrite lookup_insert_ne in Hv by (intros Heq; by eapply DBKeyForBlock_LastHashKey).
      destruct (decide (DBKeyForBlock h
                          ∈ ((λ data, (entry_key data, data)) <$> blocks').*1)) as [Hk|Hk].
      + rewrite <- list_fmap_compose in Hk.
        apply list_elem_of_fmap in Hk as (data & Hk & (b & -> & Hb)%Hin).
        simpl in Hk. unfold entry_key in Hk. simpl in Hk. apply DBKeyForBlock_inj in Hk.
        subst h. by eapply block_at_stored.
      + rewrite PutMulti_lookup_other in Hv by done. by rewrite lookup_empty in Hv.
    - intros Hh. destruct (wf_decodes _ Hwf _ Hh) as [b Hb].
      eapply block_at_stored. by rewrite Hat. }
  split; [done|]. split; [done|]. split; [apply lookup_insert_eq|].
  by apply (WellFormed_ext bc).
Qed.

(** *** Spendable outputs, continued *)

(** X19. For an amount that is zero or negative [FindSpendableOutputs]
    consumes nothing: it returns 0 and the empty map whenever
    [FindUnspentTransactions] returns, in every state. *)
Theorem FindSpendableOutputs_nonpositive fuel pubKeyHash amount bc :
  amount ≤ 0 →
  FindSpendableOutputs fuel pubKeyHash amount bc
  = prod_map (λ _, (0, ∅)) id <$> FindUnspentTransactions fuel pubKeyHash bc.
Proof.
  intros Hle. unfold FindSpendableOutputs. unfold mbind at 1, M_bind.
  destruct (FindUnspentTransactions fuel pubKeyHash bc) as [[unspentTxs bc']|]; [|done].
  simpl. by rewrite spend_txs_consume, consume_reached.
Qed.

(** *** The iterator *)

Lemma reachable_no_empty_hash bc :
  reachable bc → Hash Genesis ≠ [] → block_at bc [] = None.
Proof.
  intros Hreach Hg. induction Hreach as [bc HInit|bc block owned success bc' _ IH HPut].
  - apply Init_fresh in HInit as ->. unfold block_at. simpl.
    rewrite lookup_insert_ne by (intros Heq; by eapply DBKeyForBlock_LastHashKey).
    rewrite lookup_insert_ne, lookup_empty; [done|].
    intros Heq%DBKeyForBlock_inj. done.
  - destruct (rejected_dec bc block owned) as [Hrej|Hrej].
    + rewrite Put_rejected in HPut by done. by injection HPut as <- <-.
    + rewrite Put_admitted in HPut by done. injection HPut as <- <-.
      rewrite block_at_admitted. rewrite decide_False; [done|].
      unfold rejected in Hrej. intros Heq. apply Hrej. right. by left.
Qed.

Lemma cursor_step (h : bytes) (b : Block) (l : list Block) :
  from_option PrevHash (PrevHash b) (last l) = from_option PrevHash h (last (b :: l)).
Proof.
  destruct l as [|b' l]; [done|]. rewrite last_cons_cons.
  destruct (last (b' :: l)) eqn:Hlast; [done|]. by apply last_None in Hlast.
Qed.

Lemma Next_times_chain bc il :
  ∀ n h idx bs,
    ((0 < n)%nat → chain bc h bs) → (n ≤ length bs)%nat →
    -1 ≤ idx → idx + Z.of_nat n < 2 ^ 63 →
    Next_times n {| Iter_LastHash := il; CurrentHash := h; Index := idx |} bc
    = Some (((λ b, (b, bool_decide (BlockNum b = 0))) <$> take n bs,
             {| Iter_LastHash := il;
                CurrentHash := from_option PrevHash h (last (take n bs));
                Index := idx + Z.of_nat n |}), bc).
Proof.
  induction n as [|n IH]; intros h idx bs Hc Hn Hidx Hmax; simpl.
  - rewrite ?take_0. simpl. by rewrite Z.add_0_r.
  - specialize (Hc ltac:(lia)). destruct bs as [|b bs]; [simpl in Hn; lia|].
    simpl in Hn. apply chain_head in Hc as Hhead.
    destruct Hhead as (b0 & bs0 & Heq & Hb). injection Heq as <- <-.
    unfold mbind at 1, M_bind at 1. rewrite Next_block_at. simpl. rewrite Hb.
    unfold mbind, M_bind. rewrite int_add_small by lia.
    rewrite (IH (PrevHash b) (idx + 1) bs); [| |lia|lia|lia].
    + simpl. rewrite (cursor_step h).
      by replace (idx + Z.of_nat (S n)) with (idx + 1 + Z.of_nat n) by lia.
    + intros Hpos. apply chain_inv_cons in Hc as (_ & _ & Hc); [done|].
      destruct bs; [simpl in Hn; lia|done].
Qed.

(** X20. In a state reached by [Init] and calls of [Put], with a non-empty
    genesis hash and a chain shorter than 2^63 blocks, an iterator created
    for a stored hash returns the blocks of its chain in order, with the end
    mark on the last one only; after [n] calls its index is [n - 1] and
    [Reset] makes it the iterator it was at creation. A call of [Next] after
    the last block stops the process. *)
Theorem iterator_walk bc h :
  reachable bc → stored bc h → Hash Genesis ≠ [] →
  ∃ bs, chain bc h bs
    ∧ (∀ i b, bs !! i = Some b → (BlockNum b = 0 ↔ S i = length bs))
    ∧ (Z.of_nat (length bs) < 2 ^ 63 →
       ∀ n, (n ≤ length bs)%nat →
         ∃ iter,
           Next_times n (NewIterator h) bc
           = Some (((λ b, (b, bool_decide (BlockNum b = 0))) <$> take n bs, iter), bc)
           ∧ Index iter = Z.of_nat n - 1
           ∧ Reset iter = NewIterator h
           ∧ (n = length bs → Next iter bc = None)).
Proof.
  intros Hreach Hh Hg. pose proof (reachable_WellFormed _ Hreach) as Hwf.
  destruct (WellFormed_chain _ _ Hwf Hh) as (body & Hc & Hbody & _).
  exists (body ++ [Genesis]). split; [done|]. split.
  - intros i b Hi. rewrite length_app. simpl.
    destruct (decide (i < length body)%nat) as [Hlt|Hge].
    + rewrite lookup_app_l in Hi by done.
      rewrite Forall_forall in Hbody.
      destruct (Hbody b) as [Hn _]; [by eapply list_elem_of_lookup_2|].
      split; [done|lia].
    + apply lookup_lt_Some in Hi as Hlen. rewrite length_app in Hlen. simpl in Hlen.
      rewrite lookup_app_r in Hi by lia.
      replace (i - length body)%nat with 0%nat in Hi by lia. injection Hi as <-.
      split; [lia|]. intros _. apply Genesis_BlockNum.
  - intros Hmax n Hn. eexists. unfold NewIterator.
    rewrite (Next_times_chain bc h n h (-1) (body ++ [Genesis])) by (done || lia).
    split; [done|]. simpl. repeat split; [lia|].
    intros ->. rewrite firstn_all, last_snoc. simpl.
    rewrite Next_block_at. simpl. rewrite Genesis_PrevHash.
    by rewrite reachable_no_empty_hash.
Qed.

(** *** Verification of a transaction *)

Context `{!TransactionCrypto}.

Lemma collect_prevTXs_chain bc bs fuel :
  WellFormed bc → chain bc (LastHash bc) bs → (length bs ≤ fuel)%nat →
  ∀ inputs prevTXs,
    collect_prevTXs fuel inputs prevTXs bc
    = if decide (Forall (λ input, is_Some (find_in_block (txns_of bs) (In_ID input)))
                        inputs)
      then Some (prev_map (txns_of bs) inputs prevTXs, bc)
      else None.
Proof.
  intros Hwf Hc Hfuel.
  induction inputs as [|input inputs IH]; intros prevTXs.
  - by rewrite decide_True.
  - cbn [collect_prevTXs]. unfold mbind, M_bind.
    rewrite (FindTransaction_chain _ _ _ Hwf Hc) by done.
    unfold prev_map. cbn [foldl].
    destruct (find_in_block (txns_of bs) (In_ID input)) as [prev|] eqn:Hfind.
    + rewrite IH. fold (prev_map (txns_of bs) inputs).
      destruct (decide (Forall _ inputs)) as [Hall|Hall];
        destruct (decide (Forall _ (input :: inputs))) as [Hall'|Hall']; try done.
      * destruct Hall'. constructor; [by rewrite Hfind|done].
      * by apply Forall_cons in Hall' as [_ ?].
    + destruct (decide (Forall _ (input :: inputs))) as [Hall'|Hall']; [|done].
      apply Forall_cons in Hall' as [[? Hin] _]. congruence.
Qed.

Lemma prev_map_keeps txs inputs :
  ∀ prevTXs key, is_Some (prevTXs !! key) → is_Some (prev_map txs inputs prevTXs !! key).
Proof.
  unfold prev_map. induction inputs as [|input inputs IH]; intros prevTXs key Hkey; [done|].
  simpl. apply IH. destruct (find_in_block txs (In_ID input)) as [prev|]; [|done].
  destruct (decide (EncodeToString (ID prev) = key)) as [->|Hne].
  - rewrite lookup_insert_eq. eauto.
  - by rewrite lookup_insert_ne.
Qed.

Lemma prev_map_covers txs inputs :
  ∀ prevTXs input,
    input ∈ inputs → is_Some (find_in_block txs (In_ID input)) →
    is_Some (prev_map txs inputs prevTXs !! EncodeToString (In_ID input)).
Proof.
  induction inputs as [|i inputs IH]; intros prevTXs input Hin Hfound.
  - by apply elem_of_nil in Hin.
  - apply elem_of_cons in Hin as [->|Hin].
    + destruct Hfound as [prev Hprev]. unfold prev_map. simpl. rewrite Hprev.
      apply find_in_block_Some in Hprev as [_ Hid].
      apply (prev_map_keeps txs inputs). rewrite <- Hid, lookup_insert_eq. eauto.
    + unfold prev_map. simpl. by apply (IH _ input).
Qed.

Lemma prev_map_values txs inputs :
  ∀ prevTXs key prev,
    prev_map txs inputs prevTXs !! key = Some prev →
    prevTXs !! key = Some prev
    ∨ (prev ∈ txs ∧ key = EncodeToString (ID prev)
       ∧ ∃ input, input ∈ inputs ∧ ID prev = In_ID input).
Proof.
  induction inputs as [|i inputs IH]; intros prevTXs key prev Hlook; [by left|].
  unfold prev_map in Hlook. simpl in Hlook. apply IH in Hlook as [Hold|Hnew].
  - destruct (find_in_block txs (In_ID i)) as [p|] eqn:Hp; [|by left].
    apply find_in_block_Some in Hp as [Hin Hid].
    destruct (decide (EncodeToString (ID p) = key)) as [<-|Hne].
    + rewrite lookup_insert_eq in Hold. injection Hold as <-. right.
      repeat split; [done|]. exists i. split; [apply elem_of_cons; by left|done].
    + rewrite lookup_insert_ne in Hold by done. by left.
  - right. destruct Hnew as (Hin & Hkey & input & Hinput & Hid).
    repeat split; [done|done|]. exists input. split; [apply elem_of_cons; by right|done].
Qed.

(** X23. In a well-formed state [VerifyTransaction] panics when an input
    names a transaction that the current chain does not hold. Otherwise it
    returns what the signature check says of the transaction and of a map
    that has, under the hex id of every input, a transaction of the chain
    with that id, and nothing else. *)
Theorem VerifyTransaction_inputs bc tx :
  WellFormed bc →
  ∃ bs, chain bc (LastHash bc) bs
    ∧ ∀ fuel, (length bs ≤ fuel)%nat →
        ((∃ input, input ∈ Inputs tx ∧ ∀ tx', tx' ∈ txns_of bs → ID tx' ≠ In_ID input) →
         VerifyTransaction fuel tx bc = None)
        ∧ ((∀ input, input ∈ Inputs tx → ∃ tx', tx' ∈ txns_of bs ∧ ID tx' = In_ID input) →
           ∃ prevTXs,
             VerifyTransaction fuel tx bc = Some (tx_Verify tx prevTXs, bc)
             ∧ (∀ input, input ∈ Inputs tx →
                         is_Some (prevTXs !! EncodeToString (In_ID input)))
             ∧ (∀ key prev, prevTXs !! key = Some prev →
                  prev ∈ txns_of bs ∧ key = EncodeToString (ID prev)
                  ∧ ∃ input, input ∈ Inputs tx ∧ ID prev = In_ID input)).
Proof.
  intros Hwf. destruct (current_chain _ Hwf) as (body & Hc & _).
  exists (body ++ [Genesis]). split; [done|]. intros fuel Hfuel.
  unfold VerifyTransaction. unfold mbind, M_bind.
  rewrite (collect_prevTXs_chain _ _ _ Hwf Hc Hfuel).
  split.
  - intros (input & Hin & Hnone). rewrite decide_False; [done|].
    rewrite Forall_forall. intros Hall. destruct (Hall input Hin) as [prev Hprev].
    apply find_in_block_Some in Hprev as [Hprev Hid]. by eapply Hnone.
  - intros Hall.
    assert (Forall (λ input, is_Some (find_in_block (txns_of (body ++ [Genesis]))
                                                    (In_ID input))) (Inputs tx)) as Hfound.
    { apply Forall_forall. intros input Hin.
      destruct (find_in_block _ (In_ID input)) eqn:Hfind; [eauto|].
      apply find_in_block_None in Hfind. destruct Hfind. by apply Hall. }
    rewrite decide_True by done. eexists. split; [done|]. split.
    + intros input Hin. apply prev_map_covers; [done|].
      rewrite Forall_forall in Hfound. by apply Hfound.
    + intros key prev Hlook. apply prev_map_values in Hlook as [Hold|Hnew]; [|done].
      by rewrite lookup_empty in Hold.
Qed.

End Properties.

(** ** Properties of the client library *)

Lemma sliceMinerList_from_absent mAddr minerList :
  ∀ rest i, mAddr ∉ rest → Evlib.sliceMinerList_from i rest mAddr minerList = minerList.
Proof.
  induction rest as [|v rest IH]; intros i Hnot; simpl; [done|].
  rewrite bool_decide_false.
  - apply IH. intros Hin. apply Hnot, elem_of_cons. by right.
  - intros ->. apply Hnot, elem_of_cons. by left.
Qed.

Lemma sliceMinerList_from_first mAddr minerList :
  ∀ pre i post, mAddr ∉ pre →
    Evlib.sliceMinerList_from i (pre ++ mAddr :: post) mAddr minerList
    = take (i + length pre) minerList ++ drop (S (i + length pre)) minerList.
Proof.
  induction pre as [|v pre IH]; intros i post Hnot; simpl.
  - rewrite bool_decide_true by done. by rewrite Nat.add_0_r.
  - rewrite bool_decide_false.
    + rewrite IH.
      * by replace (S i + length pre)%nat with (i + S (length pre))%nat by lia.
      * intros Hin. apply Hnot, elem_of_cons. by right.
    + intros ->. apply Hnot, elem_of_cons. by left.
Qed.

(** X21. [sliceMinerList] removes the first occurrence of the address and
    nothing else; a list without the address is returned as it is. *)
Theorem sliceMinerList_first_occurrence mAddr minerList :
  (mAddr ∉ minerList → Evlib.sliceMinerList mAddr minerList = minerList)
  ∧ (∀ pre post, minerList = pre ++ mAddr :: post → mAddr ∉ pre →
       Evlib.sliceMinerList mAddr minerList = pre ++ post).
Proof.
  split.
  - apply sliceMinerList_from_absent.
  - intros pre post -> Hnot. unfold Evlib.sliceMinerList.
    rewrite sliceMinerList_from_first by done. simpl.
    rewrite take_app_length. f_equal.
    rewrite cons_middle, app_assoc. apply drop_app_length'.
    rewrite length_app. simpl. lia.
Qed.

Lemma candidate_index_absent candidate :
  ∀ cands i idx, candidate ∉ cands → Evlib.candidate_index candidate i cands idx = idx.
Proof.
  induction cands as [|cand cands IH]; intros i idx Hnot; simpl; [done|].
  rewrite bool_decide_false.
  - apply IH. intros Hin. apply Hnot, elem_of_cons. by right.
  - intros ->. apply Hnot, elem_of_cons. by left.
Qed.

Lemma candidate_index_last candidate :
  ∀ pre i idx post, candidate ∉ post →
    Evlib.candidate_index candidate i (pre ++ candidate :: post) idx
    = (i + length pre)%nat.
Proof.
  induction pre as [|cand pre IH]; intros i idx post Hnot; simpl.
  - rewrite bool_decide_true by done.
    rewrite candidate_index_absent by done. lia.
  - rewrite IH by done. lia.
Qed.

(** X22. [GetCandVotes] returns the error for an empty candidate list.
    Otherwise it answers with the votes at the index of the last occurrence
    of the candidate, and for a name that is not a candidate with the votes
    at index 0, those of the first candidate; an index beyond the votes
    received is a panic. *)
Theorem GetCandVotes_index CandidateList Votes candidate :
  (CandidateList = [] →
   ∃ err, Evlib.GetCandVotes CandidateList Votes candidate = Some (0%N, Some err))
  ∧ (CandidateList ≠ [] → candidate ∉ CandidateList →
     Evlib.GetCandVotes CandidateList Votes candidate
     = (λ votes, (votes, None)) <$> Votes !! 0%nat)
  ∧ (∀ pre post, CandidateList = pre ++ candidate :: post → candidate ∉ post →
       Evlib.GetCandVotes CandidateList Votes candidate
       = (λ votes, (votes, None)) <$> Votes !! length pre).
Proof.
  unfold Evlib.GetCandVotes. split; [|split].
  - intros ->. simpl. eauto.
  - intros Hne Hnot. rewrite bool_decide_false by (by destruct CandidateList).
    rewrite candidate_index_absent by done. by destruct (Votes !! 0%nat).
  - intros pre post -> Hnot.
    rewrite bool_decide_false by (rewrite length_app; simpl; lia).
    rewrite candidate_index_last by done. simpl.
    by destruct (Votes !! length pre).
Qed.

(** ** The properties on the concrete chain *)

Section Scenarios.

Import Example.

#[local] Existing Instance pow.

(** A decidable proposition that evaluates to true. *)
Ltac decided := apply (bool_decide_unpack _); exact I.

Lemma reachable_s3 : reachable s3.
Proof.
  unfold s3, s2, s1, s0.
  do 3 apply reachable_after_Put. apply reachable_after_Init.
Qed.

Lemma reachable_s6 : reachable s6.
Proof.
  unfold s6, s5, s4. do 3 apply reachable_after_Put. apply reachable_s3.
Qed.

(** S2: after each admission the tip is the new block, and the transactions
    are confirmed at depths 0, 1 and 2. *)
Example linear_growth :
  LastHash s1 = Hash B1 ∧ LastHash s2 = Hash B2 ∧ LastHash s3 = Hash B3
  ∧ TxnStatus 4 (ID T3) s3 = Some (0, s3)
  ∧ TxnStatus 4 (ID T2) s3 = Some (1, s3)
  ∧ TxnStatus 4 (ID T1) s3 = Some (2, s3)
  ∧ TxnStatus 4 (ID T4') s3 = Some (-1, s3).
Proof. repeat apply conj; reflexivity. Qed.

(** S3, S6: an unknown parent, a duplicate and a missing miner id are turned
    down. *)
Example rejections :
  Put Bx false s3 = Some (false, s3)
  ∧ Put B3 false s3 = Some (false, s3)
  ∧ Put (block "B3" "B4" 4 1 []) false s3 = Some (true, after (Put (block "B3" "B4" 4 1 []) false) s3)
  ∧ Put {| PrevHash := bytes_of "B3"; BlockNum := 4; Nonce := 1; Txns := [];
           MinerID := ""; Hash := bytes_of "B4" |} false s3 = Some (false, s3).
Proof. repeat apply conj; reflexivity. Qed.

(** S4: a block on a side branch is stored and the tip stays. *)
Example side_branch :
  Put B2' false s3 = Some (true, s4)
  ∧ LastHash s4 = Hash B3
  ∧ block_at s4 (Hash B2) = Some B2 ∧ block_at s4 (Hash B2') = Some B2'.
Proof. repeat apply conj; reflexivity. Qed.

(** S5: the fork difference between the side branch and the current chain. *)
Example fork_reconciliation :
  CheckoutFork 5 (Hash B4') s6 = Some (([T2'; T3'; T4'], [T2; T3]), s6).
Proof. repeat apply conj; reflexivity. Qed.

(** C2. On the chain [G], [B1], [B2], the only output of [T1] is locked with
    alice's key and is referenced by the input of [T2] in the tip block;
    [FindUnspentTransactions] reports [T1] all the same. *)
Theorem FindUnspentTransactions_reports_spent_output :
  chain s2 (LastHash s2) [B2; B1; Genesis]
  ∧ Txns B2 = [T2] ∧ Inputs T2 = [spend "t1" 0]
  ∧ Txns B1 = [T1] ∧ ID T1 = bytes_of "t1" ∧ Outputs T1 = [pay 5 alice]
  ∧ FindUnspentTransactions 3 alice s2 = Some ([T1], s2).
Proof.
  split.
  - apply chain_parent; [reflexivity|discriminate|].
    apply chain_parent; [reflexivity|discriminate|].
    apply chain_genesis; reflexivity.
  - repeat apply conj; reflexivity.
Qed.

Lemma WellFormed_s3 : WellFormed s3.
Proof. apply reachable_WellFormed, reachable_s3. Qed.

Lemma WellFormed_s6 : WellFormed s6.
Proof. apply reachable_WellFormed, reachable_s6. Qed.

(** C1 on the fork of scenario S5. *)
Lemma CheckoutFork_fork_difference_witness :
  WellFormed s6 ∧ stored s6 (Hash B4') ∧ Hash B4' ≠ LastHash s6
  ∧ ∃ chainNew chainOld i,
      chain s6 (Hash B4') chainNew ∧ chain s6 (LastHash s6) chainOld
      ∧ first_divergence (Hash <$> reverse chainNew) (Hash <$> reverse chainOld) i
      ∧ ∀ fuel, (length chainNew ≤ fuel)%nat → (length chainOld ≤ fuel)%nat →
          CheckoutFork fuel (Hash B4') s6
          = Some ((txns_of (drop i (reverse chainNew)),
                   txns_of (drop i (reverse chainOld))), s6).
Proof.
  assert (stored s6 (Hash B4')) as Hst by decided.
  assert (Hash B4' ≠ LastHash s6) as Hne by decided.
  exact (conj WellFormed_s6 (conj Hst (conj Hne
           (CheckoutFork_fork_difference s6 (Hash B4') WellFormed_s6 Hst Hne)))).
Defined.

(** C3 on a duplicate of [B3], and on [B2'] put twice. *)
Lemma Put_false_unchanged_witness :
  stored s3 (Hash B3) ∧ Put B3 false s3 = Some (false, s3)
  ∧ Put B2' false s3 = Some (true, s4) ∧ Put B2' true s4 = Some (false, s4).
Proof.
  assert (stored s3 (Hash B3)) as Hdup by decided.
  assert (Put B2' false s3 = Some (true, s4)) as Hput by reflexivity.
  exact (conj Hdup (conj (proj1 (proj2 (Put_false_unchanged s3 B3 false)) Hdup)
           (conj Hput (proj2 (proj2 (Put_false_unchanged s3 B2' false)) s4 Hput true)))).
Defined.

(** C4 on a block without the work: turned down when received, admitted
    when owned. *)
Lemma Put_admission_witness :
  (rejected s3 Bw false ∧ Put Bw false s3 = Some (false, s3))
  ∧ (¬ rejected s3 Bw true
     ∧ ∃ bc', Put Bw true s3 = Some (true, bc')
              ∧ DB bc' !! DBKeyForBlock (Hash Bw) = Some (Encode Bw)).
Proof.
  assert (rejected s3 Bw false) as Hrej.
  { decided. }
  assert (¬ rejected s3 Bw true) as Hadm.
  { decided. }
  exact (conj (conj Hrej (proj1 (Put_admission s3 Bw false) Hrej))
              (conj Hadm (proj2 (Put_admission s3 Bw true) Hadm))).
Defined.

(** C5 on the side-branch block of scenario S4. *)
Lemma Put_tip_update_witness :
  Put B2' false s3 = Some (true, s4)
  ∧ (PrevHash B2' = LastHash s3 → LastHash s4 = Hash B2')
  ∧ (PrevHash B2' ≠ LastHash s3 → LastHash s4 = LastHash s3)
  ∧ DB s3 !! DBKeyForBlock (Hash B2') = None
  ∧ DB s4 !! DBKeyForBlock (Hash B2') = Some (Encode B2')
  ∧ (∀ key, key ≠ DBKeyForBlock (Hash B2') → DB s4 !! key = DB s3 !! key).
Proof.
  assert (Put B2' false s3 = Some (true, s4)) as Hput by reflexivity.
  exact (conj Hput (Put_tip_update s3 B2' false s4 Hput)).
Defined.

(** C6 on the state with both branches. *)
Lemma reachable_invariants_witness :
  reachable s6
  ∧ (∀ h b, block_at s6 h = Some b →
            (BlockNum b = 0 ∧ PrevHash b = []) ∨ stored s6 (PrevHash b))
  ∧ (∀ h, stored s6 h → is_Some (block_at s6 h))
  ∧ stored s6 (LastHash s6).
Proof.
  exact (conj reachable_s6 (reachable_invariants s6 reachable_s6)).
Defined.

(** C7 on the linear chain of scenario S2. *)
Lemma TxnStatus_depth_witness :
  WellFormed s3
  ∧ ∃ bs, chain s3 (LastHash s3) bs
      ∧ ∀ fuel, (length bs ≤ fuel)%nat → Z.of_nat (length bs) < 2 ^ 63 →
          ∃ k, TxnStatus fuel (ID T1) s3 = Some (k, s3)
            ∧ ((k = -1 ∧ ∀ b, b ∈ bs → ¬ contains b (ID T1))
               ∨ (0 ≤ k ∧ ∃ b, bs !! Z.to_nat k = Some b ∧ contains b (ID T1)
                  ∧ ∀ j b', (j < Z.to_nat k)%nat → bs !! j = Some b' →
                            ¬ contains b' (ID T1))).
Proof.
  exact (conj WellFormed_s3 (TxnStatus_depth s3 (ID T1) WellFormed_s3)).
Defined.

(** C8 for alice and the amount 6 on the linear chain. *)
Lemma FindSpendableOutputs_accumulates_witness :
  WellFormed s3
  ∧ ∃ bs, chain s3 (LastHash s3) bs
      ∧ ∀ fuel, (length bs ≤ fuel)%nat →
          ∃ unspentTxs accumulated unspentOuts n,
            FindUnspentTransactions fuel alice s3 = Some (unspentTxs, s3)
            ∧ FindSpendableOutputs fuel alice 6 s3
              = Some ((accumulated, unspentOuts), s3)
            ∧ (n ≤ length (candidates alice unspentTxs))%nat
            ∧ accumulated = total 0 (take n (candidates alice unspentTxs))
            ∧ (∀ txID,
                 unspentOuts !! txID
                 = let outs := indices_of txID (take n (candidates alice unspentTxs)) in
                   if decide (outs = []) then None else Some outs)
            ∧ (∀ j, (j < n)%nat →
                    total 0 (take j (candidates alice unspentTxs)) < 6)
            ∧ (6 ≤ accumulated ∨ n = length (candidates alice unspentTxs)).
Proof.
  exact (conj WellFormed_s3 (FindSpendableOutputs_accumulates s3 alice 6 WellFormed_s3)).
Defined.

(** C9 on the fork of scenario S5. *)
Lemma CheckoutFork_pure_witness :
  CheckoutFork 5 (Hash B4') s6 = Some (([T2'; T3'; T4'], [T2; T3]), s6)
  ∧ s6 = s6
  ∧ CheckoutFork 5 (LastHash s6) s6 = Some (([], []), s6).
Proof.
  assert (CheckoutFork 5 (Hash B4') s6 = Some (([T2'; T3'; T4'], [T2; T3]), s6))
    as Hrun by reflexivity.
  exact (conj Hrun
           (conj (proj1 (CheckoutFork_pure 5 (Hash B4') s6) _ _ Hrun)
                 (proj2 (CheckoutFork_pure 5 (Hash B4') s6)))).
Defined.

(** C10 for alice on the linear chain, where [T3] has two outputs locked
    with her key. *)
Lemma FindUnspentTransactions_one_copy_per_output_witness :
  WellFormed s3
  ∧ ∃ bs, chain s3 (LastHash s3) bs
      ∧ ∀ fuel, (length bs ≤ fuel)%nat →
          ∃ unspentTxs,
            FindUnspentTransactions fuel alice s3 = Some (unspentTxs, s3)
            ∧ unspentTxs = txns_of bs ≫= (λ tx, replicate (locked_count alice tx) tx)
            ∧ ∀ tx, occurrences tx unspentTxs
                    = (occurrences tx (txns_of bs) * locked_count alice tx)%nat.
Proof.
  exact (conj WellFormed_s3
           (FindUnspentTransactions_one_copy_per_output s3 alice WellFormed_s3)).
Defined.

(** The result of C10 on that chain: [T3] twice, then [T1]. *)
Example unspent_of_alice :
  FindUnspentTransactions 4 alice s3 = Some ([T3; T3; T1], s3)
  ∧ locked_count alice T3 = 2%nat
  ∧ FindSpendableOutputs 4 alice 100 s3
    = Some ((19, {[ EncodeToString (ID T3) := [0; 2; 0; 2];
                    EncodeToString (ID T1) := [0] ]}), s3).
Proof. repeat apply conj; reflexivity. Qed.

(** *** The further properties on the concrete chain *)

#[local] Existing Instance gob.
#[local] Existing Instance crypto.

Ltac chain_by_evaluation :=
  repeat first
    [ apply chain_genesis; [reflexivity|reflexivity]
    | apply chain_parent; [reflexivity|discriminate|] ].

Lemma WellFormed_s2 : WellFormed s2.
Proof.
  apply reachable_WellFormed. unfold s2, s1, s0.
  do 2 apply reachable_after_Put. apply reachable_after_Init.
Qed.

(** X1 on a fresh database. *)
Lemma Init_once_witness :
  Init (NewBlockChain ∅) = Some (None, s0)
  ∧ Init s0 = Some (Some "blockchain has already been initialized"%string, s0).
Proof.
  assert (Init (NewBlockChain ∅) = Some (None, s0)) as Hinit by reflexivity.
  exact (conj Hinit (proj2 (Init_once (NewBlockChain ∅)) s0 Hinit)).
Defined.

(** X2 on a fresh database. *)
Lemma Init_effects_witness :
  DB (NewBlockChain ∅) !! LastHashKey = None
  ∧ ∃ bc', Init (NewBlockChain ∅) = Some (None, bc')
      ∧ LastHash bc' = Hash Genesis
      ∧ DB bc' !! LastHashKey = Some (Raw (Hash Genesis))
      ∧ block_at bc' (Hash Genesis) = Some Genesis
      ∧ (∀ key, key ≠ LastHashKey → key ≠ DBKeyForBlock (Hash Genesis) →
                DB bc' !! key = DB (NewBlockChain ∅) !! key)
      ∧ ResumeFromDB bc' = Some (None, bc').
Proof.
  assert (DB (NewBlockChain ∅) !! LastHashKey = None) as Hfresh by reflexivity.
  exact (conj Hfresh (Init_effects (NewBlockChain ∅) Hfresh)).
Defined.

(** X3 after three admissions: the tip is [B3], the entry is still [G]. *)
Lemma ResumeFromDB_after_Put_witness :
  reachable s3 ∧ LastHash s3 = Hash B3
  ∧ DB s3 !! LastHashKey = Some (Raw (Hash Genesis))
  ∧ ResumeFromDB s3 = Some (None, with_tip s3 (Hash Genesis)).
Proof.
  exact (conj reachable_s3 (conj eq_refl (ResumeFromDB_after_Put s3 reachable_s3))).
Defined.

(** X4 on the side-branch block. *)
Lemma Put_append_only_witness :
  Put B2' false s3 = Some (true, s4) ∧ DB s3 ⊆ DB s4.
Proof.
  assert (Put B2' false s3 = Some (true, s4)) as Hput by reflexivity.
  exact (conj Hput (Put_append_only s3 B2' false true s4 Hput)).
Defined.


(** X6 on the state with both branches. *)
Lemma genesis_unique_witness :
  reachable s6
  ∧ block_at s6 (Hash Genesis) = Some Genesis
  ∧ (∀ h b, block_at s6 h = Some b → BlockNum b = 0 → h = Hash Genesis ∧ b = Genesis)
  ∧ (∀ h, stored s6 h → ∃ body, chain s6 h (body ++ [Genesis])).
Proof.
  exact (conj reachable_s6 (genesis_unique s6 reachable_s6)).
Defined.

(** X7 on the side branch. *)
Lemma chain_acyclic_witness :
  WellFormed s6 ∧ stored s6 (Hash B4')
  ∧ ∃ bs, chain s6 (Hash B4') bs ∧ NoDup (Hash <$> bs)
          ∧ (length bs ≤ size (DB s6))%nat.
Proof.
  assert (stored s6 (Hash B4')) as Hst by decided.
  exact (conj WellFormed_s6 (conj Hst (chain_acyclic s6 (Hash B4') WellFormed_s6 Hst))).
Defined.

(** X8 for [T1] on the linear chain. *)
Lemma FindTransaction_first_witness :
  WellFormed s3
  ∧ ∃ bs, chain s3 (LastHash s3) bs
      ∧ ∀ fuel, (length bs ≤ fuel)%nat →
          ∃ tx err, FindTransaction fuel (ID T1) s3 = Some ((tx, err), s3)
            ∧ ((err = None
                ∧ ∃ i, txns_of bs !! i = Some tx ∧ ID tx = ID T1
                       ∧ ∀ j tx', (j < i)%nat → txns_of bs !! j = Some tx' →
                                  ID tx' ≠ ID T1)
               ∨ (err = Some "Transaction does not exist"%string
                  ∧ tx = Transaction_zero
                  ∧ ∀ tx', tx' ∈ txns_of bs → ID tx' ≠ ID T1)).
Proof.
  exact (conj WellFormed_s3 (FindTransaction_first s3 (ID T1) WellFormed_s3)).
Defined.

(** X9 for [T1] on the linear chain. *)
Lemma TxnStatus_FindTransaction_agree_witness :
  WellFormed s3
  ∧ ∃ bs, chain s3 (LastHash s3) bs
      ∧ ∀ fuel, (length bs ≤ fuel)%nat → Z.of_nat (length bs) < 2 ^ 63 →
          ∃ k tx err,
            TxnStatus fuel (ID T1) s3 = Some (k, s3)
            ∧ FindTransaction fuel (ID T1) s3 = Some ((tx, err), s3)
            ∧ (k = -1 ↔ err ≠ None)
            ∧ (err = None →
               ∃ b, bs !! Z.to_nat k = Some b ∧ tx ∈ Txns b ∧ ID tx = ID T1).
Proof.
  exact (conj WellFormed_s3 (TxnStatus_FindTransaction_agree s3 (ID T1) WellFormed_s3)).
Defined.

(** X10 on the first block after genesis. *)
Lemma Put_current_chain_witness :
  Put B1 false s0 = Some (true, s1) ∧ chain s0 (LastHash s0) [Genesis]
  ∧ (PrevHash B1 = LastHash s0 → chain s1 (LastHash s1) [B1; Genesis])
  ∧ (PrevHash B1 ≠ LastHash s0 → chain s1 (LastHash s1) [Genesis]).
Proof.
  assert (Put B1 false s0 = Some (true, s1)) as Hput by reflexivity.
  assert (chain s0 (LastHash s0) [Genesis]) as Hc by chain_by_evaluation.
  exact (conj Hput (conj Hc (Put_current_chain s0 B1 false s1 [Genesis] Hput Hc))).
Defined.

(** X11 for [T1] when [B3] is admitted. *)
Lemma TxnStatus_after_Put_witness :
  WellFormed s2 ∧ Put B3 false s2 = Some (true, s3) ∧ PrevHash B3 = LastHash s2
  ∧ ∃ bs, chain s2 (LastHash s2) bs
      ∧ ∀ fuel, (length bs < fuel)%nat → Z.of_nat (length bs) + 1 < 2 ^ 63 →
          ∃ k k', TxnStatus fuel (ID T1) s2 = Some (k, s2)
            ∧ TxnStatus fuel (ID T1) s3 = Some (k', s3)
            ∧ (contains B3 (ID T1) → k' = 0)
            ∧ (¬ contains B3 (ID T1) → k = -1 → k' = -1)
            ∧ (¬ contains B3 (ID T1) → k ≠ -1 → k' = k + 1).
Proof.
  assert (Put B3 false s2 = Some (true, s3)) as Hput by reflexivity.
  assert (PrevHash B3 = LastHash s2) as Hprev by reflexivity.
  exact (conj WellFormed_s2 (conj Hput (conj Hprev
           (TxnStatus_after_Put s2 B3 false s3 (ID T1) WellFormed_s2 Hput Hprev)))).
Defined.

(** X12 on the side-branch block. *)
Lemma side_branch_frame_witness :
  WellFormed s3 ∧ Put B2' false s3 = Some (true, s4) ∧ PrevHash B2' ≠ LastHash s3
  ∧ LastHash s4 = LastHash s3
  ∧ ∃ bs, chain s3 (LastHash s3) bs
      ∧ ∀ fuel, (length bs ≤ fuel)%nat → Z.of_nat (length bs) < 2 ^ 63 →
          ∀ txid pubKeyHash amount,
            is_Some (TxnStatus fuel txid s3)
            ∧ fst <$> TxnStatus fuel txid s4 = fst <$> TxnStatus fuel txid s3
            ∧ fst <$> FindTransaction fuel txid s4 = fst <$> FindTransaction fuel txid s3
            ∧ fst <$> FindUnspentTransactions fuel pubKeyHash s4
              = fst <$> FindUnspentTransactions fuel pubKeyHash s3
            ∧ fst <$> FindSpendableOutputs fuel pubKeyHash amount s4
              = fst <$> FindSpendableOutputs fuel pubKeyHash amount s3.
Proof.
  assert (Put B2' false s3 = Some (true, s4)) as Hput by reflexivity.
  assert (PrevHash B2' ≠ LastHash s3) as Hprev by decided.
  exact (conj WellFormed_s3 (conj Hput (conj Hprev
           (side_branch_frame s3 B2' false s4 WellFormed_s3 Hput Hprev)))).
Defined.

(** X13 on the linear chain. *)
Lemma queries_read_only_witness :
  TxnStatus 4 (ID T1) s3 = Some (2, s3) ∧ s3 = s3
  ∧ FindUnspentTransactions 4 alice s3 = Some ([T3; T3; T1], s3).
Proof.
  assert (TxnStatus 4 (ID T1) s3 = Some (2, s3)) as Hrun by reflexivity.
  assert (FindUnspentTransactions 4 alice s3 = Some ([T3; T3; T1], s3)) as Hrun'
    by reflexivity.
  exact (conj Hrun
           (conj (proj1 (queries_read_only 4 (ID T1) alice 6) s3 2 s3 Hrun) Hrun')).
Defined.

(** X14 for the candidate [B1], two blocks below the tip [B3]. *)
Lemma CheckoutFork_same_chain_witness :
  WellFormed s3 ∧ [B3; B2] ≠ []
  ∧ chain s3 (LastHash s3) ([B3; B2] ++ [B1; Genesis])
  ∧ chain s3 (Hash B1) [B1; Genesis]
  ∧ CheckoutFork 4 (Hash B1) s3 = Some (([], txns_of (reverse [B3; B2])), s3).
Proof.
  assert ([B3; B2] ≠ []) as Hne by discriminate.
  assert (chain s3 (LastHash s3) ([B3; B2] ++ [B1; Genesis])) as Hlong
    by (change (chain s3 (LastHash s3) [B3; B2; B1; Genesis]); chain_by_evaluation).
  assert (chain s3 (Hash B1) [B1; Genesis]) as Hshort by chain_by_evaluation.
  exact (conj WellFormed_s3 (conj Hne (conj Hlong (conj Hshort
           (proj1 (CheckoutFork_same_chain s3 (Hash B1) [B3; B2] [B1; Genesis]
                     WellFormed_s3 Hne) Hlong Hshort 4%nat (le_n 4)))))).
Defined.

(** X15 on the fork of scenario S5. *)
Lemma CheckoutFork_symmetric_witness :
  CheckoutFork 5 (Hash B4') s6 = Some (([T2'; T3'; T4'], [T2; T3]), s6)
  ∧ CheckoutFork 5 (LastHash s6) (with_tip s6 (Hash B4'))
    = Some (([T2; T3], [T2'; T3'; T4']), with_tip s6 (Hash B4')).
Proof.
  assert (CheckoutFork 5 (Hash B4') s6 = Some (([T2'; T3'; T4'], [T2; T3]), s6))
    as Hrun by reflexivity.
  exact (conj Hrun (CheckoutFork_symmetric 5 (Hash B4') s6 _ _ s6 Hrun)).
Defined.

(** X16 on the state with both branches. *)
Lemma queries_return_witness :
  WellFormed s6 ∧ Z.of_nat (size (DB s6)) < 2 ^ 63 ∧ stored s6 (Hash B4')
  ∧ is_Some (TxnStatus (size (DB s6)) (ID T1) s6)
  ∧ is_Some (FindTransaction (size (DB s6)) (ID T1) s6)
  ∧ is_Some (FindUnspentTransactions (size (DB s6)) alice s6)
  ∧ is_Some (FindSpendableOutputs (size (DB s6)) alice 6 s6)
  ∧ is_Some (CheckoutFork (size (DB s6)) (Hash B4') s6).
Proof.
  assert (Z.of_nat (size (DB s6)) < 2 ^ 63) as Hmax by decided.
  assert (stored s6 (Hash B4')) as Hst by decided.
  exact (conj WellFormed_s6 (conj Hmax (conj Hst
           (queries_return s6 (ID T1) alice 6 (Hash B4') WellFormed_s6 Hmax Hst)))).
Defined.


(** X18 on the linear chain. *)
Lemma Encode_ResumeFromEncodedData_witness :
  WellFormed s3
  ∧ ∃ blocks, BlockChain_Encode s3 = Some ((blocks, LastHash s3), s3)
      ∧ ∀ blocks', blocks' ≡ₚ blocks →
          ∃ bc', ResumeFromEncodedData blocks' (LastHash s3) (NewBlockChain ∅)
                 = Some (None, bc')
            ∧ LastHash bc' = LastHash s3
            ∧ (∀ h, block_at bc' h = block_at s3 h)
            ∧ DB bc' !! LastHashKey = Some (Raw (LastHash s3))
            ∧ WellFormed bc'.
Proof.
  exact (conj WellFormed_s3 (Encode_ResumeFromEncodedData s3 WellFormed_s3)).
Defined.

(** X19 for alice and the amount 0. *)
Lemma FindSpendableOutputs_nonpositive_witness :
  0 ≤ 0
  ∧ FindSpendableOutputs 4 alice 0 s3
    = prod_map (λ _, (0, ∅)) id <$> FindUnspentTransactions 4 alice s3.
Proof.
  assert (0 ≤ 0) as Hle by lia.
  exact (conj Hle (FindSpendableOutputs_nonpositive 4 alice 0 s3 Hle)).
Defined.

(** X20 from the tip of the linear chain. *)
Lemma iterator_walk_witness :
  reachable s3 ∧ stored s3 (LastHash s3) ∧ Hash Genesis ≠ []
  ∧ ∃ bs, chain s3 (LastHash s3) bs
      ∧ (∀ i b, bs !! i = Some b → (BlockNum b = 0 ↔ S i = length bs))
      ∧ (Z.of_nat (length bs) < 2 ^ 63 →
         ∀ n, (n ≤ length bs)%nat →
           ∃ iter,
             Next_times n (NewIterator (LastHash s3)) s3
             = Some (((λ b, (b, bool_decide (BlockNum b = 0))) <$> take n bs, iter), s3)
             ∧ Index iter = Z.of_nat n - 1
             ∧ Reset iter = NewIterator (LastHash s3)
             ∧ (n = length bs → Next iter s3 = None)).
Proof.
  assert (stored s3 (LastHash s3)) as Hst by decided.
  assert (Hash Genesis ≠ []) as Hg by decided.
  exact (conj reachable_s3 (conj Hst (conj Hg
           (iterator_walk s3 (LastHash s3) reachable_s3 Hst Hg)))).
Defined.

(** X21 on a list with the address twice, and on one without it. *)
Lemma sliceMinerList_first_occurrence_witness :
  let m1 : string := "m1" in
  let m2 : string := "m2" in
  let m3 : string := "m3" in
  ((m3 ∉ [m1; m2]) ∧ Evlib.sliceMinerList m3 [m1; m2] = [m1; m2])
  ∧ ([m1; m2; m3; m2] = [m1] ++ m2 :: [m3; m2] ∧ (m2 ∉ [m1])
     ∧ Evlib.sliceMinerList m2 [m1; m2; m3; m2] = [m1] ++ [m3; m2]).
Proof.
  intros m1 m2 m3.
  assert (m3 ∉ [m1; m2]) as Habsent by decided.
  assert (m2 ∉ [m1]) as Hfirst by decided.
  exact (conj
           (conj Habsent (proj1 (sliceMinerList_first_occurrence m3 [m1; m2]) Habsent))
           (conj eq_refl (conj Hfirst
              (proj2 (sliceMinerList_first_occurrence m2 [m1; m2; m3; m2]) [m1]
                     [m3; m2] eq_refl Hfirst)))).
Defined.

(** X22 for a name that is no candidate, and for the second candidate. *)
Lemma GetCandVotes_index_witness :
  let a : string := "a" in
  let b : string := "b" in
  let z : string := "z" in
  ([a; b] ≠ [] ∧ (z ∉ [a; b])
   ∧ Evlib.GetCandVotes [a; b] [7%N; 9%N] z
     = (λ votes, (votes, None)) <$> [7%N; 9%N] !! 0%nat)
  ∧ ([a; b] = [a] ++ b :: [] ∧ (b ∉ @nil string)
     ∧ Evlib.GetCandVotes [a; b] [7%N; 9%N] b
       = (λ votes, (votes, None)) <$> [7%N; 9%N] !! length [a]).
Proof.
  intros a b z.
  assert ([a; b] ≠ []) as Hne by discriminate.
  assert (z ∉ [a; b]) as Habsent by decided.
  assert (b ∉ @nil string) as Hlast by decided.
  exact (conj
           (conj Hne (conj Habsent
              (proj1 (proj2 (GetCandVotes_index [a; b] [7%N; 9%N] z)) Hne Habsent)))
           (conj eq_refl (conj Hlast
              (proj2 (proj2 (GetCandVotes_index [a; b] [7%N; 9%N] b)) [a] []
                     eq_refl Hlast)))).
Defined.

(** X23 for [T2], whose input names [T1]. *)
Lemma VerifyTransaction_inputs_witness :
  WellFormed s3
  ∧ ∃ bs, chain s3 (LastHash s3) bs
      ∧ ∀ fuel, (length bs ≤ fuel)%nat →
          ((∃ input, input ∈ Inputs T2
                     ∧ ∀ tx', tx' ∈ txns_of bs → ID tx' ≠ In_ID input) →
           VerifyTransaction fuel T2 s3 = None)
          ∧ ((∀ input, input ∈ Inputs T2 →
                       ∃ tx', tx' ∈ txns_of bs ∧ ID tx' = In_ID input) →
             ∃ prevTXs,
               VerifyTransaction fuel T2 s3 = Some (tx_Verify T2 prevTXs, s3)
               ∧ (∀ input, input ∈ Inputs T2 →
                           is_Some (prevTXs !! EncodeToString (In_ID input)))
               ∧ (∀ key prev, prevTXs !! key = Some prev →
                    prev ∈ txns_of bs ∧ key = EncodeToString (ID prev)
                    ∧ ∃ input, input ∈ Inputs T2 ∧ ID prev = In_ID input)).
Proof.
  exact (conj WellFormed_s3 (VerifyTransaction_inputs s3 T2 WellFormed_s3)).
Defined.

(** [VerifyTransaction] on the linear chain: the input of [T2] is found;
    a transaction that names an unknown one makes the call panic. *)
Example verify_on_chain :
  VerifyTransaction 4 T2 s3 = Some (true, s3)
  ∧ VerifyTransaction 4 (txn "t9" [spend "t8" 0] []) s3 = None.
Proof. repeat apply conj; reflexivity. Qed.

End Scenarios.
